(** * magic-calendar: the record reconciliation pipeline

    A shallow embedding of the pure core of [fetch_tournaments.py]
    (location normaliser, precision, dedup, cross-fill) and of
    [export_ics.py] (conflict detection), with the properties that the
    specification states about them.

    Conventions of the embedding.
    - A Python [str] is the list of its Unicode code points ([list N]).
      [Optional[str]] is [option str]; Python truthiness of such a value
      is [truthy].
    - A [datetime.date] is its proleptic Gregorian ordinal ([Z]), which
      is what [date] comparison, equality, hashing and subtraction
      observe; [mkdate y m d] and [isoformat] convert from and to the
      calendar fields.  The bounds of the type ([date.min], [date.max])
      are left out: the theorems hold for all ordinals.
    - The float returned by [jaccard] is the quotient of two set sizes;
      it is kept as an exact rational ([Q]).  IEEE division is correctly
      rounded, hence monotone, and two quotients of title-token counts
      that differ as rationals differ by far more than one ulp, so the
      comparisons [sim < 0.28] and [sim > best_score] have the same
      outcome on the rationals.
    - The tables of the Unicode character database that the interpreter
      consults ([\w], [\d], case-insensitive matching, [str.upper],
      NFKD) are a parameter of the development ([UnicodeData]): every
      general theorem holds for all tables.  The tables [ascii_tables]
      are used to evaluate the code on ASCII text.
    - [is] compares the identities of two objects: where the code uses
      it, a record comes with its identity ([obj]). *)

From Stdlib Require Import ZArith NArith QArith Lia Ascii.
From stdpp Require Import gmap list strings sorting.

(** ** Strings *)

Abbreviation str := (list N).
Abbreviation date := Z (only parsing).

(** A string literal as code points. *)
Definition lit (s : string) : str :=
  (fun a => N_of_ascii a) <$> String.list_ascii_of_string s.

#[global] Arguments lit : simpl never.

(** [bool(x)] for an [Optional[str]]. *)
Definition truthy (x : option str) : bool :=
  match x with
  | None => false
  | Some [] => false
  | Some (_ :: _) => true
  end.

(** [Py_UNICODE_ISSPACE]: the characters that [str.strip()] removes and
    that [\s] matches in a [str] pattern. *)
Definition isspace (c : N) : bool :=
  (((9 <=? c) && (c <=? 13)) || ((28 <=? c) && (c <=? 32))
   || (c =? 133) || (c =? 160) || (c =? 5760)
   || ((8192 <=? c) && (c <=? 8202))
   || (c =? 8232) || (c =? 8233) || (c =? 8239) || (c =? 8287)
   || (c =? 12288))%N.

(** [s.lstrip(...)] and [s.rstrip(...)], [f] telling which characters go. *)
Fixpoint lstrip_of (f : N -> bool) (s : str) : str :=
  match s with
  | [] => []
  | c :: r => if f c then lstrip_of f r else s
  end.

Fixpoint rstrip_of (f : N -> bool) (s : str) : str :=
  match s with
  | [] => []
  | c :: r =>
      match rstrip_of f r with
      | [] => if f c then [] else [c]
      | r' => c :: r'
      end
  end.

(** [s.strip()] *)
Definition strip (s : str) : str := rstrip_of isspace (lstrip_of isspace s).

(** [re.sub(r"[f]+", by, s)] for a character class [f] and a one-character
    replacement: [in_run] tells that the previous character belonged to
    the run which is being replaced. *)
Fixpoint sub_runs (f : N -> bool) (by_ : N) (in_run : bool) (s : str) : str :=
  match s with
  | [] => []
  | c :: r =>
      if f c
      then (if in_run then sub_runs f by_ true r else by_ :: sub_runs f by_ true r)
      else c :: sub_runs f by_ false r
  end.

(** [norm_spaces(s)]: [re.sub(r"\s+", " ", (s or "").strip())] *)
Definition norm_spaces (s : option str) : str :=
  sub_runs isspace 32%N false (strip (default [] s)).

(** The shape of a string in which white space is collapsed: [s] begins
    with a character that is not white space ([starts_nonws]); every white
    space character of [s] is one space, followed by a character that is
    not white space ([spaced]).  [ends_nonws] is for the last character. *)
Definition starts_nonws (s : str) : bool :=
  match s with
  | [] => false
  | c :: _ => negb (isspace c)
  end.

Fixpoint spaced (s : str) : bool :=
  match s with
  | [] => true
  | c :: r => (if isspace c then (c =? 32)%N && starts_nonws r else true) && spaced r
  end.

Fixpoint ends_nonws (s : str) : bool :=
  match s with
  | [] => true
  | c :: r => match r with [] => negb (isspace c) | _ :: _ => ends_nonws r end
  end.

Definition collapsed (s : str) : Prop :=
  (s = [] ∨ starts_nonws s = true) ∧ spaced s = true.

(** [s.startswith(p)] *)
Fixpoint startswith (p s : str) : bool :=
  match p, s with
  | [], _ => true
  | _ :: _, [] => false
  | a :: p', c :: s' => (a =? c)%N && startswith p' s'
  end.

(** [p in s] for a non-empty [p] *)
Fixpoint contains (p s : str) : bool :=
  startswith p s || match s with [] => false | _ :: r => contains p r end.

(** [s.replace(old, new)] for a non-empty [old]: occurrences are replaced
    from left to right without overlap; [skip] counts the characters of
    the occurrence just replaced that are still to be passed over. *)
Fixpoint replace_from (old new : str) (skip : nat) (s : str) : str :=
  match s with
  | [] => []
  | c :: r =>
      match skip with
      | S k => replace_from old new k r
      | O =>
          if startswith old s
          then new ++ replace_from old new (length old - 1) r
          else c :: replace_from old new 0 r
      end
  end.

Definition replace (old new s : str) : str := replace_from old new 0 s.

(** [s.split(sep, 1)] for a non-empty [sep]: one or two parts. *)
Fixpoint split1 (sep s : str) : list str :=
  if startswith sep s then [[]; drop (length sep) s]
  else match s with
       | [] => [[]]
       | c :: r =>
           match split1 sep r with
           | [l; r'] => [c :: l; r']
           | _ => [s]
           end
       end.

(** ** The interpreter's Unicode tables *)

Class UnicodeData := {
  (** [\w] of a [str] pattern *)
  uni_word : N -> bool;
  (** [\d] of a [str] pattern *)
  uni_decimal : N -> bool;
  (** under [(?i)], the pattern literal [p] matches the character [c] *)
  uni_ieq : N -> N -> bool;
  (** [str.upper()] *)
  uni_upper : str -> str;
  (** [unicodedata.normalize("NFKD", s).encode("ascii", "ignore").decode("ascii")] *)
  uni_nfkd_ascii : str -> str
}.

(** ** Location rules *)

(** [location_precision]: 0 = none, 1 = no comma, 2 = has a comma. *)
Definition location_precision (loc : option str) : nat :=
  if negb (truthy loc) then 0
  else
    let s := norm_spaces loc in
    if contains (lit ",") s then 2 else 1.

Section Location.
Context `{UnicodeData}.

(** [\b]: exactly one of the two neighbours is a word character; the
    outside of the text counts as a non-word character. *)
Definition word_char (o : option N) : bool := from_option uni_word false o.

Definition boundary (before after : option N) : bool :=
  xorb (word_char before) (word_char after).

(** The literal [pat] matches at the start of [text] under [(?i)]. *)
Fixpoint imatch (pat text : str) : bool :=
  match pat, text with
  | [], _ => true
  | _ :: _, [] => false
  | p :: pat', c :: text' => uni_ieq p c && imatch pat' text'
  end.

(** The alternatives of [BAD_LOCATION_RE]; [tickets?] is the two
    alternatives [tickets] and [ticket]. *)
Definition BAD_LOCATION_TERMS : list str :=
  lit <$> ["ical"; "outlook"; "export"; "subscribe"; "add to"; "google";
           "calendar"; "share"; "print"; "download"; "tickets"; "ticket";
           "prize fund"; "more info"; "read more"; "countdown"]%string.

(** [\b(alt)\b] matches at the start of [text], which follows [prev]. *)
Definition term_at (prev : option N) (text alt : str) : bool :=
  boundary prev (head text)
  && imatch alt text
  && boundary (last (take (length alt) text)) (head (drop (length alt) text)).

(** [re.compile(r"(?i)\b(alt1|alt2|...)\b").search(text)] is not [None]. *)
Fixpoint search_terms (alts : list str) (prev : option N) (text : str) : bool :=
  existsb (term_at prev text) alts
  || match text with
     | [] => false
     | c :: r => search_terms alts (Some c) r
     end.

Definition BAD_LOCATION_RE_search (s : str) : bool :=
  search_terms BAD_LOCATION_TERMS None s.

(** [re.fullmatch(r"\d{1,6}", s)] is not [None]. *)
Definition fullmatch_digits_1_6 (s : str) : bool :=
  (1 <=? length s)%nat && (length s <=? 6)%nat && forallb uni_decimal s.

Definition is_bad_location (loc : option str) : bool :=
  if negb (truthy loc) then true
  else
    let s := norm_spaces loc in
    if negb (truthy (Some s)) then true
    else if fullmatch_digits_1_6 s then true
    else if BAD_LOCATION_RE_search s then true
    else if (140 <? length s)%nat then true
    else if startswith (lit "+") s || startswith [8226%N] s then true
    else false.

(** [x.upper() == "TBA"] *)
Definition is_TBA (x : str) : bool := bool_decide (uni_upper x = lit "TBA").

(** The statements of [normalize_location] after the slash handling. *)
Definition accept (s : str) : option str :=
  if is_TBA s then None
  else if is_bad_location (Some s) then None else Some s.

Definition normalize_location (loc : option str) : option str :=
  if negb (truthy loc) then None
  else
    let s := norm_spaces loc in
    let s := replace (lit "Tukey") (lit "Turkey") s in
    if contains (lit " / ") s
    then
      match strip <$> split1 (lit " / ") s with
      | [lft; rgt] =>
          if is_TBA lft && is_TBA rgt then None
          else if is_TBA lft then (if is_TBA rgt then None else Some rgt)
          else if is_TBA rgt then (if is_TBA lft then None else Some lft)
          else accept (lft ++ lit ", " ++ rgt)
      | _ => None (* the unpacking would raise; never so, see [split1_unpacks] *)
      end
    else accept s.

(** The string that the slash handling starts from. *)
Definition prepared (loc : option str) : str :=
  replace (lit "Tukey") (lit "Turkey") (norm_spaces loc).

(** The input has at most one separator, with no [TBA] on either side
    of it: [prepared loc] holds no [" / "], or it is [Left / Right],
    neither side is [TBA] and [Left, Right] holds no [" / "]. *)
Definition plain (loc : option str) : Prop :=
  match strip <$> split1 (lit " / ") (prepared loc) with
  | [lft; rgt] =>
      is_TBA lft = false ∧ is_TBA rgt = false
      ∧ contains (lit " / ") (lft ++ lit ", " ++ rgt) = false
  | _ => True
  end.
End Location.

(** ** Calendar dates *)

Section Dates.
Local Open Scope Z_scope.

Definition is_leap (y : Z) : bool :=
  (y mod 4 =? 0) && (negb (y mod 100 =? 0) || (y mod 400 =? 0)).

Definition days_before_year (y : Z) : Z :=
  let y := y - 1 in y * 365 + y / 4 - y / 100 + y / 400.

Definition DAYS_IN_MONTH (m : Z) : Z :=
  nth (Z.to_nat m) [0; 31; 28; 31; 30; 31; 30; 31; 31; 30; 31; 30; 31] 0.

Definition DAYS_BEFORE_MONTH (m : Z) : Z :=
  nth (Z.to_nat m) [0; 0; 31; 59; 90; 120; 151; 181; 212; 243; 273; 304; 334] 0.

Definition days_before_month (y m : Z) : Z :=
  DAYS_BEFORE_MONTH m + (if (2 <? m) && is_leap y then 1 else 0).

(** [date(y, m, d)], as its ordinal ([date.toordinal]) *)
Definition mkdate (y m d : Z) : date :=
  days_before_year y + days_before_month y m + d.

(** The calendar fields of an ordinal (the module's [_ord2ymd]). *)
Definition ord2ymd (n : Z) : Z * Z * Z :=
  let n := n - 1 in
  let n400 := n / 146097 in
  let n := n mod 146097 in
  let n100 := n / 36524 in
  let n := n mod 36524 in
  let n4 := n / 1461 in
  let n := n mod 1461 in
  let n1 := n / 365 in
  let n := n mod 365 in
  let year := n400 * 400 + 1 + n100 * 100 + n4 * 4 + n1 in
  if (n1 =? 4) || (n100 =? 4) then (year - 1, 12, 31)
  else
    let leapyear := (n1 =? 3) && (negb (n4 =? 24) || (n100 =? 3)) in
    let month := Z.shiftr (n + 50) 5 in
    let preceding :=
      DAYS_BEFORE_MONTH month + (if (2 <? month) && leapyear then 1 else 0) in
    if n <? preceding
    then
      let month := month - 1 in
      let preceding :=
        preceding
        - (DAYS_IN_MONTH month + (if (month =? 2) && leapyear then 1 else 0)) in
      (year, month, n - preceding + 1)
    else (year, month, n - preceding + 1).

(** The [k] low decimal digits of [z], most significant first ([%0kd]
    for a number of at most [k] digits). *)
Fixpoint digits (k : nat) (z : Z) : str :=
  match k with
  | O => []
  | S k' => digits k' (z / 10) ++ [Z.to_N (48 + z mod 10)]
  end.

(** [d.isoformat()]: ["%04d-%02d-%02d"] *)
Definition isoformat (d : date) : str :=
  let '(y, m, dd) := ord2ymd d in
  digits 4 y ++ lit "-" ++ digits 2 m ++ lit "-" ++ digits 2 dd.
End Dates.

(** ** Slugs, title tokens and similarity *)

Definition ascii_alnum (c : N) : bool :=
  (((48 <=? c) && (c <=? 57)) || ((65 <=? c) && (c <=? 90))
   || ((97 <=? c) && (c <=? 122)))%N.

(** [str.lower] on the characters [[a-zA-Z0-9-]], the only ones that
    [slug] applies it to. *)
Definition ascii_lower (c : N) : N :=
  if ((65 <=? c) && (c <=? 90))%N then (c + 32)%N else c.

(** [s.split(sep)] for a one-character [sep] *)
Fixpoint split_char (sep : N) (s : str) : list str :=
  match s with
  | [] => [[]]
  | c :: r =>
      if (c =? sep)%N then [] :: split_char sep r
      else match split_char sep r with
           | x :: xs => (c :: x) :: xs
           | [] => [[c]]
           end
  end.

Section Titles.
Context `{UnicodeData}.

Definition is_hyphen (c : N) : bool := (c =? 45)%N.

Definition slug (s : str) : str :=
  let s := uni_nfkd_ascii s in
  let s := sub_runs (fun c => negb (ascii_alnum c)) 45%N false s in
  ascii_lower <$> rstrip_of is_hyphen (lstrip_of is_hyphen s).

(** [\b20\d{2}\b] matches at the start of [text], which follows [prev]. *)
Definition year_at (prev : option N) (text : str) : bool :=
  match text with
  | c1 :: c2 :: c3 :: c4 :: rest =>
      boundary prev (Some c1)
      && (c1 =? 50)%N && (c2 =? 48)%N && uni_decimal c3 && uni_decimal c4
      && boundary (Some c4) (head rest)
  | _ => false
  end.

(** [re.sub(r"\b20\d{2}\b", " ", text)]; [skip] counts the characters of
    the match just replaced that are still to be passed over. *)
Fixpoint sub_years (skip : nat) (prev : option N) (text : str) : str :=
  match text with
  | [] => []
  | c :: r =>
      match skip with
      | S k => sub_years k (Some c) r
      | O =>
          if year_at prev text then 32%N :: sub_years 3 (Some c) r
          else c :: sub_years 0 (Some c) r
      end
  end.

Definition title_tokens (s : str) : gset str :=
  let t := sub_years 0 None s in
  let toks := filter (fun x => 3 <= length x) (split_char 45%N (slug t)) in
  list_to_set toks.

Definition jaccard (a b : str) : Q :=
  let sa := title_tokens a in
  let sb := title_tokens b in
  if bool_decide (sa = ∅) || bool_decide (sb = ∅) then 0%Q
  else (Z.of_nat (size (sa ∩ sb)) # Pos.of_nat (size (sa ∪ sb)))%Q.
End Titles.

(** ** Model *)

Record Tournament := {
  title : str;
  organizer : str;
  start : date;
  end_ : date;  (* inclusive *)
  location : option str;
  tour : option str;
  source : str;
  source_url : str
}.

(** A copy of [t] whose [location] is [loc], as built from [t.__dict__]. *)
Definition with_location (t : Tournament) (loc : option str) : Tournament :=
  {| title := title t; organizer := organizer t; start := start t;
     end_ := end_ t; location := loc; tour := tour t; source := source t;
     source_url := source_url t |}.

#[global] Instance Tournament_eq_dec : EqDecision Tournament.
Proof. solve_decision. Defined.

(** All the fields but [location] agree. *)
Definition same_frame (u t : Tournament) : Prop :=
  title u = title t ∧ organizer u = organizer t ∧ start u = start t
  ∧ end_ u = end_ t ∧ tour u = tour t ∧ source u = source t
  ∧ source_url u = source_url t.

(** ** Post-processing: dedup and cross-fill *)

Definition choose_better (a b : Tournament) : Tournament :=
  let pa := location_precision (location a) in
  let pb := location_precision (location b) in
  if (pa <? pb)%nat then b
  else if (pb <? pa)%nat then a
  else if negb (truthy (location a)) && truthy (location b)
       then with_location a (location b)
       else a.

(** A [dict] with [str] keys: the entries in insertion order.  Assigning
    to a key that is present keeps its position. *)
Fixpoint dict_get {V} (k : str) (d : list (str * V)) : option V :=
  match d with
  | [] => None
  | (k', v) :: r => if bool_decide (k' = k) then Some v else dict_get k r
  end.

Fixpoint dict_set {V} (k : str) (v : V) (d : list (str * V)) : list (str * V) :=
  match d with
  | [] => [(k, v)]
  | (k', v') :: r =>
      if bool_decide (k' = k) then (k', v) :: r else (k', v') :: dict_set k v r
  end.

Section Dedup.
Context `{UnicodeData}.

(** [f"{slug(t.title)}|{t.start_iso}"] *)
Definition dedup_key (t : Tournament) : str :=
  slug (title t) ++ lit "|" ++ isoformat (start t).

(** The identity key of the specification *)
Definition identity (t : Tournament) : str * str :=
  (slug (title t), isoformat (start t)).

Definition dedup_step (seen : list (str * Tournament)) (t : Tournament)
  : list (str * Tournament) :=
  let key := dedup_key t in
  match dict_get key seen with
  | None => dict_set key t seen
  | Some cur => dict_set key (choose_better cur t) seen
  end.

Definition dedup (tournaments : list Tournament) : list Tournament :=
  snd <$> fold_left dedup_step tournaments [].

(** Every entry of the dictionary is stored under the key of its record. *)
Definition keyed (seen : list (str * Tournament)) : Prop :=
  Forall (λ p, dedup_key p.2 = p.1) seen.
End Dedup.

(** What [best_loc] can be: nothing, or a location of precision 2. *)
Definition fine_or_none (loc : option str) : Prop :=
  loc = None ∨ location_precision loc = 2.

(** An object of the heap: its identity (what [is] compares) and its
    value.  The records are frozen, so the value never changes. *)
Definition obj : Type := nat * Tournament.

(** [a > b] and [a < b] on the similarity scores *)
Definition Qltb (x y : Q) : bool := negb (Qle_bool y x).

Section CrossFill.
Context `{UnicodeData}.
Local Open Scope Z_scope.

(** [by_start.setdefault(t.start, []).append(t)] *)
Definition by_start_add (by_start : gmap Z (list obj)) (t : obj)
  : gmap Z (list obj) :=
  <[start t.2 := default [] (by_start !! start t.2) ++ [t]]> by_start.

(** [c] is a qualifying candidate for [t]: another object with the same
    start date, a location of precision 2 and an end date at most one
    day away. *)
Definition qualifies (t c : obj) : Prop :=
  c.1 ≠ t.1 ∧ start c.2 = start t.2
  ∧ location_precision (location c.2) = 2%nat
  ∧ Z.abs (end_ c.2 - end_ t.2) <= 1.

#[global] Instance qualifies_dec t c : Decision (qualifies t c).
Proof. unfold qualifies. apply _. Defined.

(** One iteration of [for c in cands], on the pair
    [(best_loc, best_score)]. *)
Definition consider (t : obj) (best : option str * Q) (c : obj)
  : option str * Q :=
  if (c.1 =? t.1)%nat then best                        (* c is t *)
  else if negb (location_precision (location c.2) =? 2)%nat then best
  else if 1 <? Z.abs (end_ c.2 - end_ t.2) then best
  else
    let sim := jaccard (title t.2) (title c.2) in
    if Qltb sim (28 # 100) then best
    else if Qltb best.2 sim then (location c.2, sim)
    else best.

(** The body of [for t in tournaments]: what is appended to [updated]. *)
Definition fill_one (by_start : gmap Z (list obj)) (t : obj) : Tournament :=
  if (location_precision (location t.2) =? 2)%nat then t.2
  else
    let cands := default [] (by_start !! start t.2) in
    let best := fold_left (consider t) cands (None, 0%Q) in
    if truthy best.1 && negb (bool_decide (best.1 = location t.2))
    then with_location t.2 best.1
    else t.2.

Definition cross_fill_locations (tournaments : list obj) : list Tournament :=
  let by_start := fold_left by_start_add tournaments ∅ in
  fill_one by_start <$> tournaments.

(** The list that [main] hands from [dedup] to [cross_fill_locations]:
    its elements are pairwise distinct objects. *)
Definition objects (ts : list Tournament) : list obj := imap pair ts.

(** [all_t = dedup(all_t); all_t = cross_fill_locations(all_t)] *)
Definition reconcile (all_t : list Tournament) : list Tournament :=
  cross_fill_locations (objects (dedup all_t)).
End CrossFill.

(** ** The WPA fetcher: the dates of an event *)

(** The [.dt] of a [DTSTART] or [DTEND] property: a [date], or a
    [datetime] (its date and its time of day, in seconds). *)
Inductive ics_dt :=
| IcsDate (d : date)
| IcsDateTime (d : date) (time_of_day : Z).

Definition ics_dt_to_date (x : ics_dt) : date :=
  match x with
  | IcsDate d => d
  | IcsDateTime d _ => d
  end.

Definition is_upcoming_or_ongoing (start_d end_d from_d : date) : bool :=
  ((from_d <=? start_d) || ((start_d <? from_d) && (from_d <=? end_d)))%Z.

(** What [fetch_wpa_ics] reads of a [VEVENT]: the cleaned summary, the two
    date properties, and the location that the look-ups end with. *)
Record VEvent := {
  ev_summary : str;
  ev_dtstart : ics_dt;
  ev_dtend : option ics_dt;
  ev_loc : option str
}.

(** The body of [for comp in cal.walk()] for a [VEVENT] with a [DTSTART]:
    the record appended to [out], if any.  [dtend - timedelta(days=1)] is
    the day before. *)
Definition wpa_record (from_d : date) (label feed_url : str) (comp : VEvent)
  : option Tournament :=
  let summary := ev_summary comp in
  if negb (truthy (Some summary)) then None
  else
    let start_d := ics_dt_to_date (ev_dtstart comp) in
    let end_d :=
      match ev_dtend comp with
      | None => start_d
      | Some dtend => (ics_dt_to_date dtend - 1)%Z
      end in
    if negb (is_upcoming_or_ongoing start_d end_d from_d) then None
    else
      Some {| title := summary; organizer := lit "WPA"; start := start_d;
              end_ := end_d; location := ev_loc comp; tour := Some label;
              source := lit "WPA iCal feed"; source_url := feed_url |}.

(** ** export_ics.py: conflict detection *)

Module ExportIcs.
Local Open Scope Z_scope.

(** A row: the keys that [build_conflict_set] reads. *)
Record Row := { start : date; end_ : date; title : str }.

(** [a < b] on [str]: by code points, a proper prefix first. *)
Fixpoint str_lt (a b : str) : bool :=
  match a, b with
  | _, [] => false
  | [], _ :: _ => true
  | c :: a', d :: b' => (c <? d)%N || ((c =? d)%N && str_lt a' b')
  end.

(** [key(x) < key(y)] for the sort key [(start, end, title)] *)
Definition key_lt (x y : Row) : bool :=
  (start x <? start y)
  || ((start x =? start y)
      && ((end_ x <? end_ y)
          || ((end_ x =? end_ y) && str_lt (title x) (title y)))).

(** [list.sort] is stable: an element goes before the first one that is
    not smaller, and the elements are taken from the last to the first. *)
Fixpoint insert (x : nat * Row) (l : list (nat * Row)) : list (nat * Row) :=
  match l with
  | [] => [x]
  | y :: l' => if key_lt y.2 x.2 then y :: insert x l' else x :: l
  end.

Definition sort (l : list (nat * Row)) : list (nat * Row) :=
  foldr insert [] l.

(** [for j in range(i + 1, len(indexed))] for the row [a] *)
Fixpoint scan (a : nat * Row) (later : list (nat * Row)) (conflict : gset nat)
  : gset nat :=
  match later with
  | [] => conflict
  | b :: later' =>
      if end_ a.2 <? start b.2 then conflict             (* break *)
      else if (start a.2 <=? end_ b.2) && (start b.2 <=? end_ a.2)
           then scan a later' (conflict ∪ {[a.1]} ∪ {[b.1]})
           else scan a later' conflict
  end.

(** [for i in range(len(indexed))] *)
Fixpoint sweep (indexed : list (nat * Row)) (conflict : gset nat) : gset nat :=
  match indexed with
  | [] => conflict
  | a :: later => sweep later (scan a later conflict)
  end.

Definition build_conflict_set (rows : list Row) : gset nat :=
  let indexed := sort (imap pair rows) in
  sweep indexed ∅.

(** The test of the inner loop *)
Definition overlap (r s : Row) : Prop :=
  start r <= end_ s ∧ start s <= end_ r.

(** The spans of days of [r] and [s], both ends included, have a day in
    common. *)
Definition shares_day (r s : Row) : Prop :=
  ∃ d : date, (start r <= d <= end_ r) ∧ (start s <= d <= end_ s).

(** The order of the start dates, on the indexed rows *)
Definition by_start (x y : nat * Row) : Prop := start x.2 <= start y.2.

(** The row of index [i] overlaps a row of another index. *)
Definition conflicting (l : list (nat * Row)) (i : nat) : Prop :=
  ∃ a b, a ∈ l ∧ b ∈ l ∧ a.1 = i ∧ b.1 ≠ i ∧ overlap a.2 b.2.
End ExportIcs.

(** ** Tables for ASCII text *)

(** On ASCII text the interpreter's tables are these; code points from
    128 on are outside of what this instance describes. *)
Definition ascii_word (c : N) : bool := ascii_alnum c || (c =? 95)%N.

Definition ascii_decimal (c : N) : bool := ((48 <=? c) && (c <=? 57))%N.

Definition ascii_upper (c : N) : N :=
  if ((97 <=? c) && (c <=? 122))%N then (c - 32)%N else c.

Definition ascii_ieq (p c : N) : bool := (ascii_lower p =? ascii_lower c)%N.

Definition ascii_tables : UnicodeData := {|
  uni_word := ascii_word;
  uni_decimal := ascii_decimal;
  uni_ieq := ascii_ieq;
  uni_upper := fmap ascii_upper;
  uni_nfkd_ascii := filter (fun c => (c < 128)%N)
|}.

(** ** Sample data *)

Definition sample (t : string) (start_d end_d : date) (loc : option string)
  : Tournament :=
  {| title := lit t; organizer := lit "WPA"; start := start_d; end_ := end_d;
     location := lit <$> loc; tour := None; source := lit "sample";
     source_url := lit "https://example.org/" |}.

(** The example of the specification. *)
Definition us_open : Tournament :=
  sample "US Open" (mkdate 2026 3 1) (mkdate 2026 3 5) None.

Definition us_open_qualifier : Tournament :=
  sample "US Open Qualifier" (mkdate 2026 3 1) (mkdate 2026 3 6)
    (Some "Las Vegas, USA")%string.

(** The same event as [us_open], from another source, with a coarse
    location. *)
Definition us_open_coarse : Tournament :=
  sample "US OPEN" (mkdate 2026 3 1) (mkdate 2026 3 5) (Some "USA")%string.

(** Titles with a given number of common tokens: [word n] is a token of
    three letters, different for different [n < 676], and [words a n] is
    the title made of the [n] tokens from [word a] on. *)
Definition word (n : nat) : str :=
  [116; 97 + N.of_nat (n / 26); 97 + N.of_nat (n mod 26)]%N.

Definition words (a n : nat) : str :=
  mjoin ((λ k, 32%N :: word k) <$> seq a n).

Definition titled (t : str) (end_d : date) (loc : option string) : Tournament :=
  {| title := t; organizer := lit "WPA"; start := mkdate 2026 3 1;
     end_ := end_d; location := lit <$> loc; tour := None;
     source := lit "sample"; source_url := lit "https://example.org/" |}.

(** 16 and 16 tokens, 7 of them common: similarity 7/25 = 0.28. *)
Definition at_028 : list obj :=
  [(0, titled (words 0 16) (mkdate 2026 3 5) None);
   (1, titled (words 9 16) (mkdate 2026 3 6) (Some "Las Vegas, USA")%string)].

(** 64 and 63 tokens, 27 of them common: similarity 27/100 = 0.27. *)
Definition at_027 : list obj :=
  [(0, titled (words 0 64) (mkdate 2026 3 5) None);
   (1, titled (words 37 63) (mkdate 2026 3 6) (Some "Las Vegas, USA")%string)].

(** A timed event of one day: 1 March 2026, from 10:00 to 18:00. *)
Definition one_day_event : VEvent :=
  {| ev_summary := lit "Spring Open";
     ev_dtstart := IcsDateTime (mkdate 2026 3 1) 36000;
     ev_dtend := Some (IcsDateTime (mkdate 2026 3 1) 64800);
     ev_loc := None |}.

Module ExportIcsSample.
Import ExportIcs.

Definition apr_10_12 : Row :=
  {| start := mkdate 2026 4 10; end_ := mkdate 2026 4 12; title := lit "A" |}.
Definition apr_12_15 : Row :=
  {| start := mkdate 2026 4 12; end_ := mkdate 2026 4 15; title := lit "B" |}.
Definition apr_13_15 : Row :=
  {| start := mkdate 2026 4 13; end_ := mkdate 2026 4 15; title := lit "C" |}.

(** A row of eleven days, and one whose end is two days before its
    start, as [fetch_wpa_ics] makes them of a timed event: a span without
    a day. *)
Definition apr_15_25 : Row :=
  {| start := mkdate 2026 4 15; end_ := mkdate 2026 4 25; title := lit "D" |}.
Definition apr_20_18 : Row :=
  {| start := mkdate 2026 4 20; end_ := mkdate 2026 4 18; title := lit "E" |}.
End ExportIcsSample.

(** ** Shapes of strings with separators *)

(** Every character of the class [f] is followed by one that is not in
    it ([sep_ok]); no two characters of the class are next to each other
    ([no_double]). *)
Definition starts_with_non (f : N -> bool) (s : str) : bool :=
  match s with
  | [] => false
  | c :: _ => negb (f c)
  end.

Fixpoint sep_ok (f : N -> bool) (s : str) : bool :=
  match s with
  | [] => true
  | c :: r => (if f c then starts_with_non f r else true) && sep_ok f r
  end.

Fixpoint no_double (f : N -> bool) (s : str) : bool :=
  match s with
  | [] => true
  | c :: r =>
      negb (f c && match r with [] => false | d :: _ => f d end) && no_double f r
  end.

(** The letters and digits of a slug: [[a-z0-9]] *)
Definition slug_alnum (c : N) : bool :=
  (((48 <=? c) && (c <=? 57)) || ((97 <=? c) && (c <=? 122)))%N.

Section DedupSpec.
Context `{UnicodeData}.

(** What the dictionary of [dedup] holds under the key [k] after the
    records [ts]: the first of the records of that key with the highest
    precision. *)
Definition first_best (ts : list Tournament) (k : str) (u : Tournament) : Prop :=
  dedup_key u = k
  ∧ ∃ i, ts !! i = Some u
         ∧ ∀ j t, ts !! j = Some t → dedup_key t = k →
                  location_precision (location t) ≤ location_precision (location u)
                  ∧ (location_precision (location t)
                     = location_precision (location u) → i ≤ j).
End DedupSpec.

Section CrossFillSpec.
Context `{UnicodeData}.

(** The similarity of the titles of two objects *)
Definition score (t c : obj) : Q := jaccard (title t.2) (title c.2).

(** What the loop over the candidates has found after the objects [pre]:
    nothing, none of them qualifying with a similarity of 0.28 or more; or
    the location of the first of the qualifying ones with the highest
    similarity, which is 0.28 or more. *)
Definition found (t : obj) (pre : list obj) (best : option str * Q) : Prop :=
  (best = (None, 0%Q)
   ∧ ∀ c, c ∈ pre → qualifies t c → (score t c < 28 # 100)%Q)
  ∨ ∃ j c, pre !! j = Some c ∧ qualifies t c ∧ (28 # 100 <= score t c)%Q
           ∧ best = (location c.2, score t c)
           ∧ ∀ j' c', pre !! j' = Some c' → qualifies t c' →
                      (score t c' <= score t c)%Q
                      ∧ (j' < j → (score t c' < score t c)%Q).

(** No two objects of the list have one identity and different values. *)
Definition consistent (os : list obj) : Prop :=
  ∀ c c', c ∈ os → c' ∈ os → c.1 = c'.1 → c.2 = c'.2.
End CrossFillSpec.

(** ** Titles *)

Section CleanTitle.
Context `{UnicodeData}.

(** [re.sub(r"(?i)\balt\b", "", text)]; [skip] counts the characters of
    the match just removed that are still to be passed over. *)
Fixpoint remove_term (alt : str) (skip : nat) (prev : option N) (text : str)
  : str :=
  match text with
  | [] => []
  | c :: r =>
      match skip with
      | S k => remove_term alt k (Some c) r
      | O =>
          if term_at prev text alt
          then remove_term alt (length alt - 1) (Some c) r
          else c :: remove_term alt 0 (Some c) r
      end
  end.

Definition clean_title (s : str) : str :=
  let t := norm_spaces (Some s) in
  let t := strip (remove_term (lit "show poster") 0 None t) in
  let t := norm_spaces (Some t) in
  t.
End CleanTitle.

(** ** More sample data *)

(** An event of three whole days, 1 to 3 March 2026: its [DTEND] is the
    day after the last one. *)
Definition three_day_event : VEvent :=
  {| ev_summary := lit "Spring Open";
     ev_dtstart := IcsDate (mkdate 2026 3 1);
     ev_dtend := Some (IcsDate (mkdate 2026 3 4));
     ev_loc := Some (lit "Las Vegas, USA") |}.

(** * Properties *)

(** ** The insertion-ordered dictionary *)

Section Dict.
Context {V : Type}.
Implicit Types (k : str) (v : V) (d : list (str * V)).

Lemma dict_get_set k k' v d :
  dict_get k' (dict_set k v d) = if decide (k = k') then Some v else dict_get k' d.
Proof.
  induction d as [|[k0 v0] d IH]; simpl.
  - rewrite bool_decide_decide. by destruct (decide (k = k')).
  - rewrite (bool_decide_decide (k0 = k)).
    destruct (decide (k0 = k)) as [->|Hne]; simpl.
    + rewrite (bool_decide_decide (k = k')). by destruct (decide (k = k')).
    + rewrite (bool_decide_decide (k0 = k')).
      destruct (decide (k0 = k')) as [->|]; [|done].
      by rewrite decide_False.
Qed.

Lemma dict_get_None k d : dict_get k d = None ↔ k ∉ d.*1.
Proof.
  induction d as [|[k0 v0] d IH]; simpl.
  - split; [intros _; apply not_elem_of_nil | done].
  - rewrite bool_decide_decide, not_elem_of_cons.
    destruct (decide (k0 = k)) as [->|Hne].
    + split; [done|]. intros [[] _]. done.
    + rewrite IH. split; [by split|by intros [_ ?]].
Qed.

Lemma dict_get_Some_elem k v d : dict_get k d = Some v → (k, v) ∈ d.
Proof.
  induction d as [|[k0 v0] d IH]; simpl; [done|].
  rewrite bool_decide_decide.
  destruct (decide (k0 = k)) as [->|].
  - intros [= ->]. left.
  - intros. right. auto.
Qed.

Lemma dict_elem_get k v d : NoDup d.*1 → (k, v) ∈ d → dict_get k d = Some v.
Proof.
  induction d as [|[k0 v0] d IH]; simpl.
  - intros _ Hin. by apply elem_of_nil in Hin.
  - rewrite NoDup_cons, elem_of_cons, bool_decide_decide.
    intros [Hk0 Hnd] [[= -> ->]|Hin].
    + by rewrite decide_True.
    + destruct (decide (k0 = k)) as [->|]; [|auto].
      destruct Hk0. apply list_elem_of_fmap. by exists (k, v).
Qed.

(** Assigning to a new key appends the entry. *)
Lemma dict_set_new k v d : k ∉ d.*1 → dict_set k v d = d ++ [(k, v)].
Proof.
  induction d as [|[k0 v0] d IH]; simpl; [done|].
  rewrite not_elem_of_cons, bool_decide_decide. intros [Hne Hk].
  rewrite decide_False by done. by rewrite IH.
Qed.

(** Assigning to a present key keeps the keys and their order. *)
Lemma dict_set_keys k v d : k ∈ d.*1 → (dict_set k v d).*1 = d.*1.
Proof.
  induction d as [|[k0 v0] d IH]; simpl.
  - intros Hin. by apply elem_of_nil in Hin.
  - rewrite elem_of_cons, bool_decide_decide. intros Hin.
    destruct (decide (k0 = k)) as [->|]; simpl; [done|].
    f_equal. apply IH. by destruct Hin.
Qed.

Lemma dict_set_Forall (P : str * V → Prop) k v d :
  P (k, v) → Forall P d → Forall P (dict_set k v d).
Proof.
  intros HP. induction 1 as [|[k0 v0] d H0 Hd IH]; simpl.
  - by constructor.
  - rewrite bool_decide_decide.
    destruct (decide (k0 = k)) as [->|]; constructor; auto.
Qed.
End Dict.

(** ** Precision and [choose_better] *)

Lemma location_precision_0 loc : location_precision loc = 0 ↔ truthy loc = false.
Proof.
  unfold location_precision. destruct (truthy loc); simpl; [|done].
  by destruct (contains _ _).
Qed.

Lemma location_precision_le_2 loc : location_precision loc ≤ 2.
Proof.
  unfold location_precision.
  destruct (truthy loc); simpl; [destruct (contains _ _)|]; lia.
Qed.

Lemma location_precision_2_truthy loc :
  location_precision loc = 2 → truthy loc = true.
Proof.
  intros Hp. destruct (truthy loc) eqn:Ht; [done|].
  apply location_precision_0 in Ht. lia.
Qed.

Lemma same_frame_refl t : same_frame t t.
Proof. by repeat split. Qed.

Lemma same_frame_with_location t loc : same_frame (with_location t loc) t.
Proof. by repeat split. Qed.

Lemma choose_better_cases a b :
  choose_better a b = a ∨ choose_better a b = b
  ∨ (location_precision (location a) = location_precision (location b)
     ∧ truthy (location a) = false ∧ truthy (location b) = true
     ∧ choose_better a b = with_location a (location b)).
Proof.
  unfold choose_better.
  destruct (Nat.ltb_spec (location_precision (location a))
              (location_precision (location b))); [auto|].
  destruct (Nat.ltb_spec (location_precision (location b))
              (location_precision (location a))); [auto|].
  destruct (truthy (location a)) eqn:Ha; simpl; [auto|].
  destruct (truthy (location b)) eqn:Hb; simpl; [|auto].
  right; right. repeat split; lia.
Qed.

(** On a tie the first record is kept as it is: the branch that copies
    the location is never taken, since precision 0 on both sides means
    that neither has a location. *)
Lemma choose_better_tie a b :
  location_precision (location a) = location_precision (location b) →
  choose_better a b = a.
Proof.
  intros Heq. destruct (choose_better_cases a b) as [?|[Hb|(_ & Ha & Hb & _)]];
    [done| |].
  - unfold choose_better in *. rewrite Heq, Nat.ltb_irrefl in *.
    destruct (truthy (location a)) eqn:Ha; simpl in *; [done|].
    apply location_precision_0 in Ha. rewrite Heq in Ha.
    apply location_precision_0 in Ha. by rewrite Ha in *.
  - apply location_precision_0 in Ha. rewrite Heq in Ha.
    apply location_precision_0 in Ha. congruence.
Qed.

Lemma choose_better_precision a b :
  location_precision (location (choose_better a b))
  = location_precision (location a) `max` location_precision (location b).
Proof.
  unfold choose_better.
  destruct (Nat.ltb_spec (location_precision (location a))
              (location_precision (location b))); [lia|].
  destruct (Nat.ltb_spec (location_precision (location b))
              (location_precision (location a))); [lia|].
  destruct (negb _ && _); simpl; lia.
Qed.

(** ** Dedup *)

Section DedupProps.
Context `{UnicodeData}.
Implicit Types (t u : Tournament) (ts : list Tournament).
Implicit Types (seen : list (str * Tournament)).

Lemma length_digits k z : length (digits k z) = k.
Proof.
  revert z. induction k as [|k IH]; intros z; simpl; [done|].
  rewrite length_app, IH. simpl. lia.
Qed.

Lemma length_isoformat d : length (isoformat d) = 10.
Proof.
  unfold isoformat. destruct (ord2ymd d) as [[y m] dd].
  by rewrite !length_app, !length_digits.
Qed.

(** The dictionary key is the identity pair, written as one string. *)
Lemma dedup_key_identity t u :
  dedup_key t = dedup_key u ↔ identity t = identity u.
Proof.
  unfold dedup_key, identity. split.
  - intros Heq. rewrite !(assoc_L (++)) in Heq.
    apply app_inj_2 in Heq as [Hs Hd]; [|by rewrite !length_isoformat].
    apply app_inj_tail in Hs as [Hs _]. by rewrite Hs, Hd.
  - by intros [= -> ->].
Qed.

Lemma choose_better_key a b :
  dedup_key a = dedup_key b → dedup_key (choose_better a b) = dedup_key a.
Proof.
  intros Hab.
  destruct (choose_better_cases a b) as [->|[->|(_ & _ & _ & ->)]]; done.
Qed.

Lemma keyed_get seen k u : keyed seen → dict_get k seen = Some u → dedup_key u = k.
Proof.
  intros Hk Hg. apply dict_get_Some_elem in Hg.
  unfold keyed in Hk. rewrite Forall_forall in Hk. by apply (Hk (k, u)).
Qed.

Lemma dedup_step_keyed seen t : keyed seen → keyed (dedup_step seen t).
Proof.
  intros Hk. unfold dedup_step.
  destruct (dict_get _ _) as [cur|] eqn:Hg; apply dict_set_Forall; simpl; try done.
  apply keyed_get in Hg; [|done]. by rewrite choose_better_key.
Qed.

Lemma dedup_step_keys seen t :
  (dedup_step seen t).*1
  = if decide (dedup_key t ∈ seen.*1) then seen.*1 else seen.*1 ++ [dedup_key t].
Proof.
  unfold dedup_step. destruct (dict_get _ _) as [cur|] eqn:Hg.
  - assert (dedup_key t ∈ seen.*1) as Hin.
    { apply dict_get_Some_elem in Hg. apply list_elem_of_fmap. by eexists (_, _). }
    rewrite decide_True by done. by apply dict_set_keys.
  - apply dict_get_None in Hg. rewrite decide_False by done.
    rewrite dict_set_new by done. by rewrite fmap_app.
Qed.

Lemma dedup_step_NoDup seen t : NoDup seen.*1 → NoDup (dedup_step seen t).*1.
Proof.
  intros Hnd. rewrite dedup_step_keys. case_decide; [done|].
  apply NoDup_app. split_and!; [done| |apply NoDup_singleton].
  intros k Hk Hk'. apply list_elem_of_singleton in Hk'. by subst.
Qed.

Lemma dedup_step_get seen t k :
  dict_get k (dedup_step seen t)
  = if decide (dedup_key t = k)
    then Some (from_option (λ cur, choose_better cur t) t (dict_get k seen))
    else dict_get k seen.
Proof.
  unfold dedup_step.
  destruct (dict_get (dedup_key t) seen) as [cur|] eqn:Hg;
    rewrite dict_get_set; case_decide; subst; by rewrite ?Hg.
Qed.

(** What the loop of [dedup] maintains, from any dictionary [seen]. *)
Lemma dedup_loop_keyed ts seen :
  keyed seen → keyed (fold_left dedup_step ts seen).
Proof. revert seen. induction ts; simpl; auto using dedup_step_keyed. Qed.

Lemma dedup_loop_NoDup ts seen :
  NoDup seen.*1 → NoDup (fold_left dedup_step ts seen).*1.
Proof. revert seen. induction ts; simpl; auto using dedup_step_NoDup. Qed.

Lemma dedup_loop_keys ts seen k :
  k ∈ (fold_left dedup_step ts seen).*1 ↔ k ∈ seen.*1 ∨ k ∈ dedup_key <$> ts.
Proof.
  revert seen. induction ts as [|t ts IH]; intros seen; simpl.
  - rewrite elem_of_nil. tauto.
  - rewrite IH, dedup_step_keys, elem_of_cons.
    case_decide; [|rewrite elem_of_app, list_elem_of_singleton]; split;
      intros; destruct_or?; subst; auto.
Qed.

(** The precision stored under a key never goes down. *)
Lemma dedup_loop_grows ts seen k u :
  dict_get k seen = Some u →
  ∃ u', dict_get k (fold_left dedup_step ts seen) = Some u'
        ∧ location_precision (location u) ≤ location_precision (location u').
Proof.
  revert seen u. induction ts as [|t ts IH]; intros seen u Hg; simpl.
  - by exists u.
  - pose proof (dedup_step_get seen t k) as Hs. rewrite Hg in Hs. simpl in Hs.
    case_decide.
    + destruct (IH _ _ Hs) as (u' & Hu' & Hle). exists u'. split; [done|].
      rewrite choose_better_precision in Hle. lia.
    + eauto.
Qed.

Lemma dedup_loop_covers ts seen t :
  t ∈ ts →
  ∃ u', dict_get (dedup_key t) (fold_left dedup_step ts seen) = Some u'
        ∧ location_precision (location t) ≤ location_precision (location u').
Proof.
  revert seen. induction ts as [|t0 ts IH]; intros seen Hin; simpl.
  - by apply elem_of_nil in Hin.
  - apply elem_of_cons in Hin as [->|Hin]; [|auto].
    pose proof (dedup_step_get seen t0 (dedup_key t0)) as Hs.
    rewrite decide_True in Hs by done.
    destruct (dedup_loop_grows ts _ _ _ Hs) as (u' & Hu' & Hle).
    exists u'. split; [done|].
    destruct (dict_get (dedup_key t0) seen); simpl in Hle; [|done].
    rewrite choose_better_precision in Hle. lia.
Qed.

(** The keys of the output, in order, are the keys of the dictionary. *)
Lemma keyed_values seen : keyed seen → dedup_key <$> seen.*2 = seen.*1.
Proof.
  induction 1 as [|[k u] seen Hk _ IH]; [done|]. cbn in *. by f_equal.
Qed.

Lemma dedup_keys ts :
  dedup_key <$> dedup ts = (fold_left dedup_step ts []).*1.
Proof. apply keyed_values, dedup_loop_keyed. constructor. Qed.

Lemma NoDup_dedup_keys ts : NoDup (dedup_key <$> dedup ts).
Proof. rewrite dedup_keys. apply dedup_loop_NoDup. constructor. Qed.

Lemma elem_of_dedup ts u :
  u ∈ dedup ts ↔ dict_get (dedup_key u) (fold_left dedup_step ts []) = Some u.
Proof.
  pose proof (dedup_loop_keyed ts [] ltac:(constructor)) as Hk.
  pose proof (dedup_loop_NoDup ts [] ltac:(constructor)) as Hnd.
  unfold dedup. split.
  - intros ([k u'] & -> & Hin)%list_elem_of_fmap. simpl.
    unfold keyed in Hk. rewrite Forall_forall in Hk.
    specialize (Hk _ Hin). simpl in Hk. rewrite Hk. by apply dict_elem_get.
  - intros Hg%dict_get_Some_elem. apply list_elem_of_fmap. by eexists (_, _).
Qed.

(** A list without two records of one key goes through the loop
    unchanged. *)
Lemma dedup_loop_distinct ts seen :
  NoDup (seen.*1 ++ (dedup_key <$> ts)) →
  fold_left dedup_step ts seen = seen ++ ((λ t, (dedup_key t, t)) <$> ts).
Proof.
  revert seen. induction ts as [|t ts IH]; intros seen Hnd; simpl.
  - by rewrite app_nil_r.
  - simpl in Hnd.
    assert (dedup_key t ∉ seen.*1) as Hfresh.
    { apply NoDup_app in Hnd as (_ & Hd & _). intros Hin.
      apply (Hd _ Hin). left. }
    unfold dedup_step at 2.
    rewrite (proj2 (dict_get_None _ _) Hfresh), dict_set_new by done.
    rewrite IH; [by rewrite <-(assoc_L (++))|].
    by rewrite fmap_app, <-(assoc_L (++)).
Qed.
End DedupProps.

(** ** Cross-fill *)

Section CrossFillProps.
Context `{UnicodeData}.
Implicit Types (t c : obj) (os : list obj) (best : option str * Q).
Local Open Scope Z_scope.

(** The candidates of a record are the objects with its start date, in
    the order of the list. *)
Lemma by_start_lookup os (m : gmap Z (list obj)) k :
  default [] (fold_left by_start_add os m !! k)
  = default [] (m !! k) ++ filter (λ c, start c.2 = k) os.
Proof.
  revert m. induction os as [|c os IH]; intros m; simpl.
  - by rewrite app_nil_r.
  - rewrite IH. unfold by_start_add. rewrite filter_cons.
    destruct (decide (start c.2 = k)) as [->|Hne].
    + rewrite lookup_insert_eq. simpl. by rewrite <-(assoc_L (++)).
    + by rewrite lookup_insert_ne.
Qed.

Lemma cands_of os k :
  default [] (fold_left by_start_add os ∅ !! k) = filter (λ c, start c.2 = k) os.
Proof. by rewrite by_start_lookup, lookup_empty. Qed.

(** [best_loc] is only ever the location of a candidate of precision 2. *)
Lemma consider_fine t best c :
  fine_or_none best.1 → fine_or_none (consider t best c).1.
Proof.
  intros Hb. unfold consider.
  destruct (c.1 =? t.1)%nat; [done|].
  destruct (Nat.eqb_spec (location_precision (location c.2)) 2); simpl; [|done].
  destruct (1 <? _); [done|].
  destruct (Qltb _ (28 # 100)); [done|].
  destruct (Qltb _ _); [|done]. by right.
Qed.

Lemma scan_fine t cands best :
  fine_or_none best.1 → fine_or_none (fold_left (consider t) cands best).1.
Proof.
  revert best. induction cands; simpl; auto using consider_fine.
Qed.

(** A record is passed on as it is, or with a location of precision 2
    in place of one of lower precision. *)
Lemma fill_one_cases (m : gmap Z (list obj)) t :
  fill_one m t = t.2
  ∨ ∃ loc, location_precision loc = 2%nat
           ∧ location_precision (location t.2) ≠ 2%nat
           ∧ fill_one m t = with_location t.2 loc.
Proof.
  unfold fill_one.
  destruct (Nat.eqb_spec (location_precision (location t.2)) 2); [by left|].
  set (best := fold_left _ _ _).
  destruct (truthy best.1) eqn:Ht; simpl; [|by left].
  destruct (negb _); [|by left].
  right. exists best.1. split_and!; [|done|done].
  destruct (scan_fine t (default [] (m !! start t.2)) (None, 0%Q)) as [Hn|Hp];
    [by left| |done].
  fold best in Hn. by rewrite Hn in Ht.
Qed.

Lemma cross_fill_lookup os i :
  cross_fill_locations os !! i
  = fill_one (fold_left by_start_add os ∅) <$> os !! i.
Proof. unfold cross_fill_locations. apply list_lookup_fmap. Qed.

Lemma length_cross_fill os : length (cross_fill_locations os) = length os.
Proof. unfold cross_fill_locations. apply length_fmap. Qed.

Lemma fill_one_precision (m : gmap Z (list obj)) t :
  (location_precision (location t.2)
   ≤ location_precision (location (fill_one m t)))%nat.
Proof.
  destruct (fill_one_cases m t) as [->|(loc & Hl & Ht & ->)]; [done|].
  simpl. rewrite Hl. apply location_precision_le_2.
Qed.

Lemma fill_one_frame (m : gmap Z (list obj)) t : same_frame (fill_one m t) t.2.
Proof.
  destruct (fill_one_cases m t) as [->|(loc & _ & _ & ->)];
    [apply same_frame_refl|apply same_frame_with_location].
Qed.

(** The test [c is t] never decides anything: a record that is looked
    at has precision below 2, and a candidate of precision below 2 is
    passed over anyway. *)
Lemma consider_self t best c :
  c.2 = t.2 → location_precision (location t.2) ≠ 2%nat → consider t best c = best.
Proof.
  intros Hc Ht. unfold consider. destruct (c.1 =? t.1)%nat; [done|].
  rewrite Hc. by destruct (Nat.eqb_spec (location_precision (location t.2)) 2).
Qed.
End CrossFillProps.

(** ** The similarity threshold *)

Lemma Qltb_lt x y : Qltb x y = true ↔ (x < y)%Q.
Proof.
  unfold Qltb. rewrite negb_true_iff, <-not_true_iff_false, Qle_bool_iff.
  split; [apply Qnot_le_lt|apply Qlt_not_le].
Qed.

Lemma Qltb_ge x y : Qltb x y = false ↔ (y <= x)%Q.
Proof. unfold Qltb. by rewrite negb_false_iff, Qle_bool_iff. Qed.

Section Threshold.
Context `{UnicodeData}.
Implicit Types (t c : obj) (os : list obj) (best : option str * Q).
Local Open Scope Z_scope.

Lemma consider_rejects t best c :
  (qualifies t c → (jaccard (title t.2) (title c.2) < 28 # 100)%Q) →
  start c.2 = start t.2 →
  consider t best c = best.
Proof.
  intros Hq Hs. unfold consider.
  destruct (Nat.eqb_spec c.1 t.1); [done|].
  destruct (Nat.eqb_spec (location_precision (location c.2)) 2); simpl; [|done].
  destruct (Z.ltb_spec 1 (Z.abs (end_ c.2 - end_ t.2))); [done|].
  rewrite (proj2 (Qltb_lt _ _)); [done|]. apply Hq. by repeat split.
Qed.

Lemma consider_accepts t best c :
  qualifies t c →
  (28 # 100 <= jaccard (title t.2) (title c.2))%Q →
  consider t best c
  = if Qltb best.2 (jaccard (title t.2) (title c.2))
    then (location c.2, jaccard (title t.2) (title c.2)) else best.
Proof.
  intros (Hid & _ & Hp & Hd) Hsim. unfold consider.
  rewrite (proj2 (Nat.eqb_neq _ _) Hid), Hp. simpl.
  rewrite (proj2 (Z.ltb_ge _ _) Hd).
  by rewrite (proj2 (Qltb_ge _ _) Hsim).
Qed.

(** No candidate reaches the threshold: nothing is found. *)
Lemma scan_rejects t cands best :
  Forall (λ c, start c.2 = start t.2
               ∧ (qualifies t c → (jaccard (title t.2) (title c.2) < 28 # 100)%Q))
         cands →
  fold_left (consider t) cands best = best.
Proof.
  revert best. induction 1 as [|c cands [Hs Hq] _ IH]; intros; simpl; [done|].
  by rewrite consider_rejects.
Qed.

(** One candidate sits on the threshold or above and no other reaches
    it: its location is found. *)
Lemma scan_accepts t c cands :
  qualifies t c →
  (28 # 100 <= jaccard (title t.2) (title c.2))%Q →
  Forall (λ c', start c'.2 = start t.2
                ∧ (qualifies t c' →
                   c' = c ∨ (jaccard (title t.2) (title c'.2) < 28 # 100)%Q))
         cands →
  c ∈ cands →
  fold_left (consider t) cands (None, 0%Q)
  = (location c.2, jaccard (title t.2) (title c.2)).
Proof.
  intros Hq Hsim Hall.
  set (found := (location c.2, jaccard (title t.2) (title c.2))).
  assert (0 < jaccard (title t.2) (title c.2))%Q as Hpos.
  { eapply Qlt_le_trans; [|exact Hsim]. reflexivity. }
  assert (∀ best, best = (None, 0%Q) ∨ best = found →
            consider t best c = found) as Hc.
  { intros best Hb. rewrite consider_accepts by done. fold found.
    destruct Hb as [->| ->]; simpl.
    - by rewrite (proj2 (Qltb_lt _ _) Hpos).
    - by rewrite (proj2 (Qltb_ge _ _) (Qle_refl _)). }
  assert (∀ best, (best = (None, 0%Q) ∨ best = found) →
            (best = found ∨ c ∈ cands) →
            fold_left (consider t) cands best = found) as Hgen.
  { induction Hall as [|c' cands [Hs Hq'] _ IH]; intros best Hb Hin; simpl.
    - destruct Hin as [?|Hin]; [done|]. by apply elem_of_nil in Hin.
    - destruct (decide (qualifies t c')) as [Hq''|Hnq];
        [destruct (Hq' Hq'') as [->|Hlt]|].
      + rewrite (Hc _ Hb). apply IH; [by right|by left].
      + rewrite consider_rejects by done. apply IH; [done|].
        destruct Hin as [?|Hin]; [by left|].
        apply elem_of_cons in Hin as [->|?]; [|by right].
        by apply Qlt_not_le in Hlt.
      + rewrite consider_rejects by done. apply IH; [done|].
        destruct Hin as [?|Hin]; [by left|].
        apply elem_of_cons in Hin as [->|?]; [done|by right]. }
  intros Hin. apply Hgen; [by left|by right].
Qed.
End Threshold.

(** ** The statements of the specification: dedup and cross-fill *)

Section Reconciliation.
Context `{UnicodeData}.
Implicit Types (t u v a b : Tournament) (c : obj) (os : list obj).

Lemma identity_same_frame u t : same_frame u t → identity u = identity t.
Proof. intros (Ht & _ & Hs & _). unfold identity. by rewrite Ht, Hs. Qed.

Lemma cross_fill_Forall2 (P : obj → Tournament → Prop) os :
  (∀ m c, P c (fill_one m c)) → Forall2 P os (cross_fill_locations os).
Proof.
  intros HP. unfold cross_fill_locations. apply Forall2_fmap_r.
  apply Forall_Forall2_diag, Forall_forall. intros c _. apply HP.
Qed.

Lemma reconcile_lookup all_t i u :
  dedup all_t !! i = Some u →
  ∃ v, reconcile all_t !! i = Some v ∧ same_frame v u
       ∧ location_precision (location u) ≤ location_precision (location v).
Proof.
  intros Hu. unfold reconcile. rewrite cross_fill_lookup.
  unfold objects. rewrite list_lookup_imap, Hu. simpl.
  eexists. split; [done|]. split.
  - apply (fill_one_frame _ (i, u)).
  - apply (fill_one_precision _ (i, u)).
Qed.

(** C1. Location precision never decreases: a record of the input has,
    under its identity key, a record in the output of [dedup], and one
    in the output of the whole reconciliation, whose location is at
    least as precise as its own; [choose_better] returns the precision
    of the better of its two arguments, and [cross_fill_locations]
    returns, position by position, a record at least as precise: the
    record itself, or one of precision 2 for one of precision below 2. *)
Theorem precision_non_decreasing (all_t : list Tournament) t :
  t ∈ all_t →
  (∃ u, u ∈ dedup all_t ∧ identity u = identity t
        ∧ location_precision (location t) ≤ location_precision (location u))
  ∧ (∃ v, v ∈ reconcile all_t ∧ identity v = identity t
          ∧ location_precision (location t) ≤ location_precision (location v))
  ∧ (∀ a b, location_precision (location (choose_better a b))
            = location_precision (location a) `max` location_precision (location b))
  ∧ (∀ os, Forall2 (λ c v, location_precision (location c.2)
                           ≤ location_precision (location v))
             os (cross_fill_locations os))
  ∧ (∀ os, Forall2 (λ c v, v = c.2
                           ∨ (location_precision (location c.2) < 2
                              ∧ location_precision (location v) = 2))
             os (cross_fill_locations os)).
Proof.
  intros Hin.
  destruct (dedup_loop_covers all_t [] t Hin) as (u & Hg & Hle).
  assert (dedup_key u = dedup_key t) as Hk.
  { eapply keyed_get; [|done]. apply dedup_loop_keyed. constructor. }
  assert (u ∈ dedup all_t) as Hu by (apply elem_of_dedup; by rewrite Hk).
  split_and!.
  - exists u. split_and!; [done| |done]. by apply dedup_key_identity.
  - apply list_elem_of_lookup in Hu as [i Hi].
    destruct (reconcile_lookup _ _ _ Hi) as (v & Hv & Hf & Hle').
    exists v. split_and!.
    + by apply list_elem_of_lookup_2 in Hv.
    + rewrite (identity_same_frame _ _ Hf). by apply dedup_key_identity.
    + lia.
  - apply choose_better_precision.
  - intros os. apply cross_fill_Forall2. intros m c. apply fill_one_precision.
  - intros os. apply cross_fill_Forall2. intros m c.
    destruct (fill_one_cases m c) as [->|(loc & Hl & Hc & ->)]; [by left|].
    right. split; [|done]. pose proof (location_precision_le_2 (location c.2)). lia.
Qed.

(** C2. The output of [dedup] holds exactly one record per identity key
    of the input: no two of its records have the same key, and its keys
    are those of the input. *)
Theorem dedup_one_per_key (tournaments : list Tournament) :
  NoDup (identity <$> dedup tournaments)
  ∧ ∀ k, k ∈ identity <$> dedup tournaments ↔ k ∈ identity <$> tournaments.
Proof.
  assert (∀ (l : list Tournament) k,
            k ∈ identity <$> l ↔ ∃ t, t ∈ l ∧ identity t = k) as Hid.
  { intros l k. rewrite list_elem_of_fmap.
    split; [intros (t & -> & ?)|intros (t & ? & <-)]; eauto. }
  split.
  - pose proof (NoDup_dedup_keys tournaments) as Hnd.
    induction (dedup tournaments) as [|u l IH]; simpl in *; [constructor|].
    apply NoDup_cons in Hnd as [Hu Hnd]. apply NoDup_cons. split; [|auto].
    intros (u' & Hu' & Heq)%Hid. apply Hu, list_elem_of_fmap.
    exists u'. split; [|done]. symmetry. by apply dedup_key_identity.
  - intros k. rewrite !Hid. split.
    + intros (u & Hu & <-).
      assert (dedup_key u ∈ dedup_key <$> dedup tournaments) as Hk.
      { apply list_elem_of_fmap. by exists u. }
      rewrite dedup_keys in Hk. apply dedup_loop_keys in Hk as [Hk|Hk].
      * by apply elem_of_nil in Hk.
      * apply list_elem_of_fmap in Hk as (t & Ht & Hin). exists t.
        split; [done|]. symmetry. by apply dedup_key_identity.
    + intros (t & Hin & <-).
      assert (dedup_key t ∈ dedup_key <$> dedup tournaments) as Hk.
      { rewrite dedup_keys. apply dedup_loop_keys. right.
        apply list_elem_of_fmap. by exists t. }
      apply list_elem_of_fmap in Hk as (u & Hu & Hin'). exists u.
      split; [done|]. symmetry. by apply dedup_key_identity.
Qed.

(** C9. [dedup] is idempotent: a second pass returns the list of the
    first one, in the same order. *)
Theorem dedup_idempotent (tournaments : list Tournament) :
  dedup (dedup tournaments) = dedup tournaments.
Proof.
  pose proof (NoDup_dedup_keys tournaments) as Hnd.
  generalize dependent (dedup tournaments). intros l Hnd.
  unfold dedup. rewrite dedup_loop_distinct by done. simpl.
  rewrite <-list_fmap_compose. apply list_fmap_id.
Qed.

(** C8. Merging only touches the location: what [choose_better] returns
    for two records of equal precision, and what
    [cross_fill_locations] returns for a record, agree with the
    original record on every field but [location]. *)
Theorem location_only_merge a b os :
  location_precision (location a) = location_precision (location b) →
  same_frame (choose_better a b) a
  ∧ Forall2 (λ c v, same_frame v c.2) os (cross_fill_locations os).
Proof.
  intros Htie. split.
  - destruct (choose_better_cases a b) as [->|[Hb|(_ & _ & _ & ->)]].
    + apply same_frame_refl.
    + rewrite (choose_better_tie _ _ Htie). apply same_frame_refl.
    + apply same_frame_with_location.
  - apply cross_fill_Forall2. intros m c. apply fill_one_frame.
Qed.

(** C6. The threshold of the cross-fill.  For a record [t] below
    precision 2 and a qualifying candidate [c], the other qualifying
    candidates all being below 0.28: when the similarity of [c] is
    exactly 0.28 the record gets the location of [c], and when it is
    0.27 the record is passed on unchanged. *)
Theorem cross_fill_threshold os (i : nat) (t c : obj) :
  os !! i = Some t →
  location_precision (location t.2) ≠ 2 →
  c ∈ os →
  qualifies t c →
  (∀ c', c' ∈ os → qualifies t c' →
         c' = c ∨ (jaccard (title t.2) (title c'.2) < 28 # 100)%Q) →
  ((jaccard (title t.2) (title c.2) == 28 # 100)%Q →
   cross_fill_locations os !! i = Some (with_location t.2 (location c.2)))
  ∧ ((jaccard (title t.2) (title c.2) == 27 # 100)%Q →
     cross_fill_locations os !! i = Some t.2).
Proof.
  intros Ht Hp Hc Hq Hothers.
  rewrite cross_fill_lookup, Ht. simpl. unfold fill_one.
  rewrite (proj2 (Nat.eqb_neq _ _) Hp), cands_of.
  split; intros Hsim; f_equal.
  - rewrite (scan_accepts t c).
    + simpl. destruct Hq as (_ & _ & Hc2 & _).
      rewrite (location_precision_2_truthy _ Hc2). simpl.
      rewrite bool_decide_false; [done|]. intros Heq. by rewrite Heq in Hc2.
    + done.
    + rewrite Hsim. apply Qle_refl.
    + apply Forall_forall. intros c' [Hs Hin]%list_elem_of_filter. auto.
    + apply list_elem_of_filter. split; [|done]. by destruct Hq as (_ & ? & _).
  - rewrite scan_rejects; [done|].
    apply Forall_forall. intros c' [Hs Hin]%list_elem_of_filter.
    split; [done|]. intros Hq'.
    destruct (Hothers c' Hin Hq') as [->|?]; [|done].
    rewrite Hsim. reflexivity.
Qed.
End Reconciliation.

(** ** Conflict detection *)

Module ConflictProps.
Import ExportIcs.
Local Open Scope Z_scope.
Implicit Types (a b x y : nat * Row) (l later : list (nat * Row)).
Implicit Types (conflict : gset nat) (i j : nat).

Lemma overlap_sym (r s : Row) : overlap r s → overlap s r.
Proof. unfold overlap. tauto. Qed.

(** On rows whose end is not before their start, the test of the code
    says that the two spans have a day in common. *)
Lemma overlap_shares_day (r s : Row) :
  start r <= end_ r → start s <= end_ s → overlap r s ↔ shares_day r s.
Proof.
  unfold overlap, shares_day. intros Hr Hs. split.
  - intros [H1 H2]. exists (Z.max (start r) (start s)). lia.
  - intros (d & ? & ?). lia.
Qed.

(** *** The sort *)

Lemma key_lt_start (r s : Row) : key_lt r s = true → start r <= start s.
Proof.
  unfold key_lt. rewrite orb_true_iff, andb_true_iff. lia.
Qed.

Lemma key_ge_start (r s : Row) : key_lt r s = false → start s <= start r.
Proof.
  unfold key_lt. rewrite orb_false_iff. lia.
Qed.

Lemma insert_Permutation x l : insert x l ≡ₚ x :: l.
Proof.
  induction l as [|y l IH]; simpl; [done|].
  destruct (key_lt y.2 x.2); [|done].
  rewrite IH. apply Permutation_swap.
Qed.

Lemma sort_Permutation l : sort l ≡ₚ l.
Proof.
  induction l as [|x l IH]; simpl; [done|].
  by rewrite insert_Permutation, IH.
Qed.

Lemma insert_sorted x l :
  StronglySorted by_start l → StronglySorted by_start (insert x l).
Proof.
  induction l as [|y l IH]; simpl; intros Hs.
  - repeat constructor.
  - apply StronglySorted_cons in Hs as [Hy Hs].
    destruct (key_lt y.2 x.2) eqn:Hlt; apply StronglySorted_cons.
    + split; [|auto]. rewrite insert_Permutation.
      constructor; [|done]. by apply key_lt_start.
    + split; [|by apply StronglySorted_cons].
      apply key_ge_start in Hlt. constructor; [done|].
      eapply Forall_impl; [exact Hy|]. unfold by_start. intros; simpl in *. lia.
Qed.

Lemma sort_sorted l : StronglySorted by_start (sort l).
Proof.
  induction l; simpl; [constructor|by apply insert_sorted].
Qed.

(** *** The sweep *)

(** The inner loop marks [a] and the later rows that overlap it: the
    rows after the [break] start after the end of [a]. *)
Lemma scan_spec a later conflict i :
  StronglySorted by_start later →
  i ∈ scan a later conflict
  ↔ i ∈ conflict ∨ ∃ b, b ∈ later ∧ overlap a.2 b.2 ∧ (i = a.1 ∨ i = b.1).
Proof.
  revert conflict. induction later as [|b later IH]; intros conflict Hs; simpl.
  - split; [by left|]. intros [?|(b & Hb & _)]; [done|].
    by apply elem_of_nil in Hb.
  - apply StronglySorted_cons in Hs as [Hb Hs].
    destruct (Z.ltb_spec (end_ a.2) (start b.2)) as [Hbreak|Hgo].
    + split; [by left|]. intros [?|(b' & Hb' & [_ Ho] & _)]; [done|].
      apply elem_of_cons in Hb' as [->|Hb']; [lia|].
      rewrite Forall_forall in Hb. specialize (Hb _ Hb').
      unfold by_start in Hb. lia.
    + destruct (Z.leb_spec (start a.2) (end_ b.2)) as [Hab|Hab]; simpl.
      * rewrite (proj2 (Z.leb_le _ _) Hgo), IH by done.
        rewrite !elem_of_union, !elem_of_singleton. split.
        -- intros [[[?| ->]| ->]|(b' & Hb' & Ho & Hi)]; [by left|right..].
           ++ exists b. split_and!; [left|done|by left].
           ++ exists b. split_and!; [left|done|by right].
           ++ exists b'. split_and!; [by right|done..].
        -- intros [?|(b' & Hb' & Ho & Hi)]; [by left; left; left|].
           apply elem_of_cons in Hb' as [->|Hb'].
           ++ left. destruct Hi as [->| ->]; [left; by right|by right].
           ++ right. by exists b'.
      * rewrite IH by done. split.
        -- intros [?|(b' & Hb' & Ho & Hi)]; [by left|right].
           exists b'. split_and!; [by right|done..].
        -- intros [?|(b' & Hb' & Ho & Hi)]; [by left|].
           apply elem_of_cons in Hb' as [->|Hb'].
           ++ destruct Ho. lia.
           ++ right. by exists b'.
Qed.

Lemma sweep_spec l conflict i :
  StronglySorted by_start l → NoDup l.*1 →
  i ∈ sweep l conflict ↔ i ∈ conflict ∨ conflicting l i.
Proof.
  revert conflict. induction l as [|a l IH]; intros conflict Hs Hnd; simpl.
  - split; [by left|]. intros [?|(a & _ & Ha & _)]; [done|].
    by apply elem_of_nil in Ha.
  - apply StronglySorted_cons in Hs as [Ha Hs].
    apply NoDup_cons in Hnd as [Hfresh Hnd].
    assert (∀ b, b ∈ l → b.1 ≠ a.1) as Hne.
    { intros b Hb Heq. apply Hfresh. rewrite <-Heq.
      apply list_elem_of_fmap. by exists b. }
    rewrite IH, scan_spec by done. unfold conflicting. split.
    + intros [[?|(b & Hb & Ho & Hi)]|(x & y & Hx & Hy & ? & ? & ?)];
        [by left|right..].
      * destruct Hi as [->| ->].
        -- exists a, b. split_and!; [left|by right|done|by apply Hne|done].
        -- exists b, a. split_and!; [by right|left|done| |by apply overlap_sym].
           intros Heq. by apply (Hne b).
      * exists x, y. split_and!; [by right|by right|done..].
    + intros [?|(x & y & Hx & Hy & Hxi & Hyi & Ho)]; [by left; left|].
      apply elem_of_cons in Hx as [->|Hx]; apply elem_of_cons in Hy as [->|Hy].
      * done.
      * left; right. exists y. split_and!; [done|done|by left].
      * left; right. exists x. split_and!; [done|by apply overlap_sym|by right].
      * right. exists x, y. by split_and!.
Qed.

Lemma elem_of_enumerate (rows : list Row) i (r : Row) :
  (i, r) ∈ imap pair rows ↔ rows !! i = Some r.
Proof.
  rewrite list_elem_of_lookup. setoid_rewrite list_lookup_imap. split.
  - intros (j & Hj). destruct (rows !! j) eqn:Hr; simpl in *; [|done].
    by injection Hj as -> ->.
  - intros Hr. exists i. by rewrite Hr.
Qed.

Lemma enumerate_ids (rows : list Row) : (imap pair rows).*1 = seq 0 (length rows).
Proof.
  rewrite fmap_imap. rewrite (imap_ext _ (λ i _, i)) by done.
  by rewrite imap_seq_0, list_fmap_id.
Qed.

(** The set returned by [build_conflict_set], in terms of the test that
    the code applies to two rows. *)
Lemma build_conflict_set_overlap (rows : list Row) i :
  i ∈ build_conflict_set rows
  ↔ ∃ j r s, j ≠ i ∧ rows !! i = Some r ∧ rows !! j = Some s ∧ overlap r s.
Proof.
  unfold build_conflict_set.
  rewrite sweep_spec; [|apply sort_sorted|].
  2:{ rewrite sort_Permutation, enumerate_ids. apply NoDup_seq. }
  rewrite elem_of_empty. unfold conflicting.
  setoid_rewrite sort_Permutation. split.
  - intros [[]|([i' r] & [j s] & Hr & Hs & Hi & Hj & Ho)]. simpl in *. subst i'.
    apply elem_of_enumerate in Hr, Hs. by exists j, r, s.
  - intros (j & r & s & Hj & Hr & Hs & Ho). right.
    exists (i, r), (j, s). split_and!; [by apply elem_of_enumerate..|done|done|done].
Qed.

(** C3. On rows whose end is not before their start, the set that
    [build_conflict_set] returns holds exactly the indices of the rows
    whose span of days, both ends included, has a day in common with
    the span of another row. *)
Theorem conflict_set_exact (rows : list Row) (i : nat) :
  (∀ r, r ∈ rows → start r <= end_ r) →
  i ∈ build_conflict_set rows
  ↔ ∃ j r s, j ≠ i ∧ rows !! i = Some r ∧ rows !! j = Some s ∧ shares_day r s.
Proof.
  intros Hwf. rewrite build_conflict_set_overlap.
  assert (∀ k r, rows !! k = Some r → start r <= end_ r) as Hwf'.
  { intros k r Hk. apply Hwf. by apply list_elem_of_lookup_2 in Hk. }
  split; intros (j & r & s & Hj & Hr & Hs & Ho); exists j, r, s;
    split_and!; try done; apply overlap_shares_day; eauto.
Qed.
End ConflictProps.

(** ** Strings *)

(** A decidable fact about constants, by evaluation. *)
Ltac by_computing := apply (bool_decide_unpack _); vm_compute; exact I.

Section Prefixes.
Implicit Types (p s l m w : str) (c : N).

Lemma startswith_cons a p c s :
  startswith (a :: p) (c :: s) = (a =? c)%N && startswith p s.
Proof. done. Qed.

Lemma contains_cons p c s :
  contains p (c :: s) = startswith p (c :: s) || contains p s.
Proof. done. Qed.

Lemma startswith_app p s : startswith p s = true ↔ s = p ++ drop (length p) s.
Proof.
  revert s. induction p as [|a p IH]; intros [|c s]; simpl; try done.
  rewrite andb_true_iff, N.eqb_eq, IH. split.
  - by intros [-> <-].
  - intros [= -> Hs]. by split.
Qed.

Lemma startswith_app_r p r : startswith p (p ++ r) = true.
Proof. apply startswith_app. by rewrite drop_app_length. Qed.

(** A character that does not occur in [p] ends what [p] can match. *)
Lemma startswith_cut p l c m :
  c ∉ p → startswith p (l ++ c :: m) = startswith p l.
Proof.
  revert l. induction p as [|a p IH]; intros l Hc; [by destruct l|].
  apply not_elem_of_cons in Hc as [Hca Hc].
  destruct l as [|b l]; simpl.
  - apply andb_false_iff. left. apply N.eqb_neq. congruence.
  - by rewrite IH.
Qed.

Lemma contains_nil p : p ≠ [] → contains p [] = false.
Proof. by destruct p. Qed.

Lemma contains_cut p l c m :
  p ≠ [] → c ∉ p → contains p (l ++ c :: m) = contains p l || contains p m.
Proof.
  intros Hp Hc. induction l as [|b l IH].
  - pose proof (startswith_cut p [] c m Hc) as Hs. simpl in *.
    rewrite Hs. by destruct p.
  - pose proof (startswith_cut p (b :: l) c m Hc) as Hs. simpl in *.
    rewrite Hs, IH. by rewrite orb_assoc.
Qed.

Lemma split1_unfold sep s :
  split1 sep s
  = if startswith sep s then [[]; drop (length sep) s]
    else match s with
         | [] => [[]]
         | c :: r =>
             match split1 sep r with
             | [l; r'] => [c :: l; r']
             | _ => [s]
             end
         end.
Proof. by destruct s. Qed.

(** Where [sep in s] holds, [s.split(sep, 1)] has two parts, around the
    separator. *)
Lemma split1_contains sep s :
  contains sep s = true → ∃ l r, split1 sep s = [l; r] ∧ s = l ++ sep ++ r.
Proof.
  induction s as [|c s IH]; rewrite split1_unfold; simpl contains.
  - rewrite orb_false_r. intros Hs. rewrite Hs. exists [], (drop (length sep) []).
    split; [done|]. by apply startswith_app in Hs.
  - destruct (startswith sep (c :: s)) eqn:Hs; simpl.
    + intros _. exists [], (drop (length sep) (c :: s)).
      split; [done|]. by apply startswith_app in Hs.
    + intros (l & r & -> & ->)%IH. by exists (c :: l), r.
Qed.

Lemma split1_not_contains sep s : contains sep s = false → split1 sep s = [s].
Proof.
  induction s as [|c s IH]; rewrite split1_unfold; simpl contains.
  - rewrite orb_false_r. by intros ->.
  - intros [-> Hc]%orb_false_iff. by rewrite IH.
Qed.
End Prefixes.

(** *** [s.replace(old, new)] *)

Section Replace.
Context (old new : str) (Hold : old ≠ []).
Implicit Types (s r w : str) (c : N).

Lemma replace_from_skip k s :
  replace_from old new k s = replace old new (drop k s).
Proof.
  revert k. induction s as [|c s IH]; intros [|k]; simpl; done.
Qed.

Lemma replace_cons c r :
  replace old new (c :: r)
  = if startswith old (c :: r)
    then new ++ replace old new (drop (length old) (c :: r))
    else c :: replace old new r.
Proof using Hold.
  unfold replace at 1. simpl. destruct (startswith old (c :: r)); [|done].
  rewrite replace_from_skip. destruct old; [done|]. simpl.
  by rewrite Nat.sub_0_r.
Qed.

(** Induction along the replacement: an occurrence is replaced and
    passed over, or a character is copied. *)
Lemma replace_ind (P : str → str → Prop) :
  P [] [] →
  (∀ r, P r (replace old new r) → P (old ++ r) (new ++ replace old new r)) →
  (∀ c r, startswith old (c :: r) = false →
          P r (replace old new r) → P (c :: r) (c :: replace old new r)) →
  ∀ s, P s (replace old new s).
Proof using Hold.
  intros Hnil Hocc Hcopy s.
  induction s as [s IH] using (induction_ltof1 _ length). unfold ltof in IH.
  destruct s as [|c r]; [done|]. rewrite replace_cons.
  destruct (startswith old (c :: r)) eqn:Hs.
  - apply startswith_app in Hs. rewrite Hs at 1. apply Hocc, IH.
    rewrite length_drop. destruct old; simpl; [done|lia].
  - apply Hcopy; [done|]. apply IH. simpl. lia.
Qed.

(** What follows a copied character in the result followed it in the
    argument, as long as it has no character with which [new] begins. *)
Lemma startswith_replace t new' w s :
  new = t :: new' → t ∉ w →
  startswith w (replace old new s) = true → startswith w s = true.
Proof using Hold.
  intros Hnew. revert s. induction w as [|a w IH]; intros s Ha; [done|].
  apply not_elem_of_cons in Ha as [Ha Hw].
  destruct s as [|c r]; [done|]. rewrite replace_cons.
  destruct (startswith old (c :: r)).
  - generalize (replace old new (drop (length old) (c :: r))). intros out.
    rewrite Hnew, <-app_comm_cons, startswith_cons, andb_true_iff, N.eqb_eq.
    intros [? _]. congruence.
  - rewrite !startswith_cons, !andb_true_iff.
    intros [? ?]. split; [done|]. by apply IH.
Qed.

(** Without an occurrence nothing changes. *)
Lemma replace_absent s : contains old s = false → replace old new s = s.
Proof using Hold.
  induction s as [|c r IH]; [done|]. simpl contains.
  intros [Hs Hc]%orb_false_iff. by rewrite replace_cons, Hs, IH.
Qed.
End Replace.

(** *** White space *)

Section Spaces.
Implicit Types (s l m r : str) (c : N) (b : bool).

Lemma spaced_cons c r :
  spaced (c :: r)
  = (if isspace c then (c =? 32)%N && starts_nonws r else true) && spaced r.
Proof. done. Qed.

Lemma starts_nonws_app l m : l ≠ [] → starts_nonws (l ++ m) = starts_nonws l.
Proof. by destruct l. Qed.

Lemma spaced_app l m : spaced l = true → spaced m = true → spaced (l ++ m) = true.
Proof.
  intros Hl Hm. induction l as [|c l IH]; [done|].
  rewrite <-app_comm_cons, spaced_cons in *.
  apply andb_true_iff in Hl as [Hc Hl]. rewrite IH by done.
  destruct (isspace c); [|done].
  apply andb_true_iff in Hc as [-> Hn].
  rewrite starts_nonws_app; [by rewrite Hn|]. by destruct l.
Qed.

(** Cutting before a white space character. *)
Lemma spaced_app_inv l m :
  spaced (l ++ m) = true → m ≠ [] → starts_nonws m = false →
  spaced l = true ∧ spaced m = true.
Proof.
  intros Hs Hm Hw. induction l as [|c l IH]; [done|].
  rewrite <-app_comm_cons, spaced_cons in Hs.
  apply andb_true_iff in Hs as [Hc Hs]. destruct (IH Hs) as [Hl Hm'].
  split; [|done]. rewrite spaced_cons, Hl, andb_true_r.
  destruct (isspace c); [|done].
  apply andb_true_iff in Hc as [-> Hn]. simpl.
  destruct l; [simpl in Hn; congruence|done].
Qed.

Lemma spaced_tail c r : spaced (c :: r) = true → spaced r = true.
Proof. rewrite spaced_cons. by intros [_ ?]%andb_true_iff. Qed.

Lemma spaced_drop k s : spaced s = true → spaced (drop k s) = true.
Proof.
  revert s. induction k as [|k IH]; intros [|c s]; simpl; try done.
  intros Hs. apply IH. by apply spaced_tail in Hs.
Qed.

(** [strip] and [re.sub] leave a collapsed string as it is. *)
Lemma lstrip_starts_nonws s : starts_nonws s = true → lstrip_of isspace s = s.
Proof. destruct s as [|c s]; simpl; [done|]. by destruct (isspace c). Qed.

Lemma rstrip_spaced s : spaced s = true → rstrip_of isspace s = s.
Proof.
  induction s as [|c s IH]; [done|]. rewrite spaced_cons.
  intros [Hc Hs]%andb_true_iff. simpl. rewrite IH by done.
  destruct s as [|d s]; [|done].
  destruct (isspace c); [|done]. by rewrite andb_false_r in Hc.
Qed.

Lemma sub_spaces_spaced s :
  spaced s = true →
  sub_runs isspace 32%N false s = s
  ∧ (starts_nonws s = true → sub_runs isspace 32%N true s = s).
Proof.
  induction s as [|c s IH]; [done|]. rewrite spaced_cons.
  intros [Hc Hs]%andb_true_iff. destruct (IH Hs) as [IH1 IH2]. simpl.
  destruct (isspace c) eqn:Hw; simpl.
  - apply andb_true_iff in Hc as [->%N.eqb_eq Hn]. split; [|done].
    by rewrite IH2.
  - by rewrite IH1.
Qed.

Lemma strip_collapsed s : collapsed s → strip s = s.
Proof.
  intros [[->|Hn] Hs]; [done|]. unfold strip.
  rewrite lstrip_starts_nonws by done. by apply rstrip_spaced.
Qed.

Lemma norm_spaces_collapsed s : collapsed s → norm_spaces (Some s) = s.
Proof.
  intros Hc. unfold norm_spaces. simpl. rewrite strip_collapsed by done.
  by apply sub_spaces_spaced, Hc.
Qed.

(** What [strip] returns has no white space at either end. *)
Lemma lstrip_spec s :
  lstrip_of isspace s = [] ∨ starts_nonws (lstrip_of isspace s) = true.
Proof.
  induction s as [|c s IH]; simpl; [by left|].
  destruct (isspace c) eqn:Hw; [done|]. right. simpl. by rewrite Hw.
Qed.

Lemma rstrip_ends_nonws s : ends_nonws (rstrip_of isspace s) = true.
Proof.
  induction s as [|c s IH]; simpl; [done|].
  destruct (rstrip_of isspace s) as [|d r].
  - destruct (isspace c) eqn:Hw; simpl; [done|by rewrite Hw].
  - done.
Qed.

Lemma rstrip_starts_nonws s :
  starts_nonws s = true → starts_nonws (rstrip_of isspace s) = true.
Proof.
  destruct s as [|c s]; simpl; [done|]. intros Hc.
  destruct (rstrip_of isspace s); [|done].
  rewrite negb_true_iff in Hc. rewrite Hc. simpl. by rewrite Hc.
Qed.

Lemma strip_spec s :
  (strip s = [] ∨ starts_nonws (strip s) = true) ∧ ends_nonws (strip s) = true.
Proof.
  unfold strip. split; [|apply rstrip_ends_nonws].
  destruct (lstrip_spec s) as [->|Hn]; [by left|].
  right. by apply rstrip_starts_nonws.
Qed.

(** What [re.sub] returns for a string that does not end in white
    space. *)
Lemma sub_spaces_starts s :
  ends_nonws s = true → s ≠ [] →
  starts_nonws (sub_runs isspace 32%N true s) = true.
Proof.
  induction s as [|c s IH]; [done|]. intros He _. simpl.
  destruct (isspace c) eqn:Hw; [|simpl; by rewrite Hw].
  destruct s as [|d s]; [simpl in He; by rewrite Hw in He|].
  by apply IH.
Qed.

Lemma sub_spaces_ends b s :
  ends_nonws s = true → spaced (sub_runs isspace 32%N b s) = true.
Proof.
  revert b. induction s as [|c s IH]; intros b He; [done|].
  assert (s ≠ [] → ends_nonws s = true) as He'.
  { intros Hs. by destruct s. }
  simpl. destruct (isspace c) eqn:Hw.
  - assert (s ≠ []) as Hs.
    { intros ->. simpl in He. by rewrite Hw in He. }
    destruct b; [by apply IH, He'|].
    rewrite spaced_cons. simpl.
    rewrite sub_spaces_starts by auto. by apply IH, He'.
  - rewrite spaced_cons, Hw. simpl.
    destruct s as [|d s]; [done|]. by apply IH, He'.
Qed.

Lemma collapsed_norm_spaces x : collapsed (norm_spaces x).
Proof.
  unfold norm_spaces. generalize (default [] x). intros s.
  destruct (strip_spec s) as [Hs He]. split.
  - destruct Hs as [->|Hs]; [by left|]. right.
    destruct (strip s) as [|c r]; [done|]. simpl in *.
    destruct (isspace c) eqn:Hw; [done|]. simpl. by rewrite Hw.
  - by apply sub_spaces_ends.
Qed.
End Spaces.

(** *** The spelling correction *)

Section Tukey.
Implicit Types (s l r w : str) (c : N).

Local Abbreviation TUKEY := (lit "Tukey").
Local Abbreviation TURKEY := (lit "Turkey").

Lemma Tukey_nonempty : lit "Tukey" ≠ [].
Proof. done. Qed.

(** The correction keeps the white space as it is. *)
Lemma replace_spaced s :
  spaced s = true →
  spaced (replace TUKEY TURKEY s) = true
  ∧ starts_nonws (replace TUKEY TURKEY s) = starts_nonws s
  ∧ (replace TUKEY TURKEY s = [] → s = []).
Proof.
  apply (replace_ind TUKEY TURKEY Tukey_nonempty
           (λ s out, spaced s = true →
                     spaced out = true ∧ starts_nonws out = starts_nonws s
                     ∧ (out = [] → s = []))); clear s.
  - done.
  - intros r IH Hs.
    assert (spaced r = true) as Hr by (apply (spaced_drop 5) in Hs; done).
    destruct (IH Hr) as (Hsp & _ & _). split_and!; [|done|done].
    apply (spaced_app TURKEY); done.
  - intros c r _ IH Hs. rewrite spaced_cons in Hs.
    apply andb_true_iff in Hs as [Hc Hr].
    destruct (IH Hr) as (Hsp & Hst & _). split_and!; [|done|done].
    by rewrite spaced_cons, Hsp, Hst, Hc.
Qed.

Lemma replace_collapsed s : collapsed s → collapsed (replace TUKEY TURKEY s).
Proof.
  intros [Hn Hs]. destruct (replace_spaced s Hs) as (Hsp & Hst & _).
  split; [|done]. destruct Hn as [->|Hn]; [by left|]. right. by rewrite Hst.
Qed.

(** After the correction no occurrence is left. *)
Lemma replace_gone s : contains TUKEY (replace TUKEY TURKEY s) = false.
Proof.
  apply (replace_ind TUKEY TURKEY Tukey_nonempty
           (λ _ out, contains TUKEY out = false)); clear s.
  - done.
  - intros r. generalize (replace TUKEY TURKEY r). intros out IH.
    change (TURKEY ++ out) with (84 :: 117 :: 114 :: 107 :: 101 :: 121 :: out)%N.
    change TUKEY with [84; 117; 107; 101; 121]%N in *.
    rewrite !contains_cons, !startswith_cons, IH. done.
  - intros c r Hs IH. rewrite contains_cons, IH, orb_false_r.
    destruct (startswith TUKEY (c :: replace TUKEY TURKEY r)) eqn:Hs'; [|done].
    rewrite <-Hs. change TUKEY with (84 :: [117; 107; 101; 121])%N in Hs' |- *.
    rewrite startswith_cons in Hs' |- *.
    apply andb_true_iff in Hs' as [-> Hs']. rewrite andb_true_l. symmetry.
    eapply (startswith_replace TUKEY TURKEY Tukey_nonempty 84%N);
      [done|by_computing|done].
Qed.

Lemma replace_replace s :
  replace TUKEY TURKEY (replace TUKEY TURKEY s) = replace TUKEY TURKEY s.
Proof. apply replace_absent; [done|apply replace_gone]. Qed.
End Tukey.

(** *** The separator *)

Section Separator.
Implicit Types (s l r : str).

Local Abbreviation SEP := (lit " / ").

(** The two sides of a separator in a collapsed string are collapsed,
    and neither is empty. *)
Lemma collapsed_sides l r :
  collapsed (l ++ SEP ++ r) →
  l ≠ [] ∧ collapsed l ∧ r ≠ [] ∧ collapsed r.
Proof.
  intros [Hn Hs].
  apply spaced_app_inv in Hs as [Hl Hr]; [|done..].
  change (SEP ++ r) with (32 :: 47 :: 32 :: r)%N in Hr.
  rewrite !spaced_cons in Hr. simpl in Hr.
  apply andb_true_iff in Hr as [Hr1 Hr2].
  assert (l ≠ []) as Hl0.
  { intros ->. by destruct Hn. }
  split_and!; [done| |by destruct r|].
  - split; [|done]. right. destruct Hn as [Hn|Hn]; [by destruct l|].
    by rewrite starts_nonws_app in Hn.
  - split; [by right|done].
Qed.

Lemma collapsed_join l r :
  l ≠ [] → collapsed l → collapsed r → r ≠ [] → collapsed (l ++ lit ", " ++ r).
Proof.
  intros Hl0 [Hln Hl] [Hrn Hr] Hr0. split.
  - right. rewrite starts_nonws_app by done. by destruct Hln.
  - apply spaced_app; [done|].
    change (lit ", " ++ r) with (44 :: 32 :: r)%N.
    rewrite !spaced_cons. simpl. rewrite Hr, andb_true_r.
    by destruct Hrn.
Qed.

(** The joined string has an occurrence of a word without space, slash
    and comma exactly if the string with the separator has one. *)
Lemma contains_join p l r :
  p ≠ [] → 32%N ∉ p → 47%N ∉ p → 44%N ∉ p →
  contains p (l ++ lit ", " ++ r) = contains p (l ++ SEP ++ r).
Proof.
  intros Hp H32 H47 H44.
  change (lit ", " ++ r) with (44 :: [] ++ 32 :: r)%N.
  change (SEP ++ r) with (32 :: [] ++ 47 :: [] ++ 32 :: r)%N.
  rewrite !contains_cut by done. by rewrite contains_nil.
Qed.
End Separator.

(** ** The location normaliser *)

Section Normaliser.
Context `{UnicodeData}.
Implicit Types (x : option str) (s l r : str).

Lemma is_bad_location_nonempty s : is_bad_location (Some s) = false → s ≠ [].
Proof. by intros Hb ->. Qed.

Lemma accept_Some s r :
  accept s = Some r →
  r = s ∧ is_TBA s = false ∧ is_bad_location (Some s) = false.
Proof.
  unfold accept. destruct (is_TBA s); [done|].
  destruct (is_bad_location (Some s)); [done|]. by intros [= <-].
Qed.

Lemma collapsed_prepared x : collapsed (prepared x).
Proof. apply replace_collapsed, collapsed_norm_spaces. Qed.

(** The parts that the slash handling works on. *)
Lemma prepared_sides x :
  contains (lit " / ") (prepared x) = true →
  ∃ l r, strip <$> split1 (lit " / ") (prepared x) = [l; r]
         ∧ prepared x = l ++ lit " / " ++ r
         ∧ l ≠ [] ∧ collapsed l ∧ r ≠ [] ∧ collapsed r.
Proof.
  intros (l & r & Hsplit & Hs)%split1_contains.
  pose proof (collapsed_prepared x) as Hc. rewrite Hs in Hc.
  apply collapsed_sides in Hc as (Hl0 & Hl & Hr0 & Hr).
  exists l, r. split_and!; try done.
  rewrite Hsplit. simpl. by rewrite !strip_collapsed.
Qed.

Lemma normalize_location_unfold x :
  normalize_location x
  = if negb (truthy x) then None
    else if contains (lit " / ") (prepared x)
    then match strip <$> split1 (lit " / ") (prepared x) with
         | [lft; rgt] =>
             if is_TBA lft && is_TBA rgt then None
             else if is_TBA lft then (if is_TBA rgt then None else Some rgt)
             else if is_TBA rgt then (if is_TBA lft then None else Some lft)
             else accept (lft ++ lit ", " ++ rgt)
         | _ => None
         end
    else accept (prepared x).
Proof. done. Qed.

(** The unpacking of the two parts never fails. *)
Lemma split1_unpacks x :
  contains (lit " / ") (prepared x) = true →
  ∃ l r, strip <$> split1 (lit " / ") (prepared x) = [l; r].
Proof. intros (l & r & ? & _)%prepared_sides. eauto. Qed.

(** But for the two returns of the [TBA] branches, what is returned has
    passed [is_bad_location]. *)
Lemma normalize_location_checked x r :
  normalize_location x = Some r →
  is_bad_location (Some r) = false
  ∨ ∃ lft rgt, strip <$> split1 (lit " / ") (prepared x) = [lft; rgt]
               ∧ (is_TBA lft = true ∨ is_TBA rgt = true).
Proof.
  rewrite normalize_location_unfold.
  destruct (truthy x); [cbn [negb]|done].
  destruct (contains _ _) eqn:Hsep.
  - destruct (split1_unpacks x Hsep) as (l & r' & Hparts). rewrite Hparts.
    destruct (is_TBA l) eqn:Hl; [intros _; right; eauto|].
    destruct (is_TBA r') eqn:Hr; [intros _; right; eauto|].
    cbn [andb]. intros (-> & _ & Hb)%accept_Some. by left.
  - intros (-> & _ & Hb)%accept_Some. by left.
Qed.

(** C10. [normalize_location] never returns the empty string: what it
    returns is not empty and has its white space collapsed, that is, it
    has no white space at either end, none but single spaces inside,
    and [norm_spaces] leaves it as it is. *)
Theorem normalize_location_nonempty x r :
  normalize_location x = Some r →
  r ≠ [] ∧ collapsed r ∧ norm_spaces (Some r) = r.
Proof.
  intros Hn.
  enough (r ≠ [] ∧ collapsed r) as [? ?]
    by (split_and!; [done..|by apply norm_spaces_collapsed]).
  rewrite normalize_location_unfold in Hn.
  destruct (truthy x); [cbn [negb] in Hn|done].
  destruct (contains _ _) eqn:Hsep.
  - destruct (prepared_sides x Hsep) as (l & r' & Hparts & _ & Hl0 & Hl & Hr0 & Hr).
    rewrite Hparts in Hn.
    destruct (is_TBA l), (is_TBA r'); cbn [andb] in Hn; try done.
    + by injection Hn as <-.
    + by injection Hn as <-.
    + apply accept_Some in Hn as (-> & _ & Hb).
      split; [by apply is_bad_location_nonempty|by apply collapsed_join].
  - apply accept_Some in Hn as (-> & _ & Hb).
    split; [by apply is_bad_location_nonempty|apply collapsed_prepared].
Qed.

(** A string that the last statements accept, collapsed, with the
    spelling corrected and without a separator, is returned as it
    is. *)
Lemma normalize_location_fixed s :
  collapsed s →
  contains (lit "Tukey") s = false →
  contains (lit " / ") s = false →
  accept s = Some s →
  normalize_location (Some s) = Some s.
Proof.
  intros Hc Ht Hsep Ha. rewrite normalize_location_unfold.
  assert (prepared (Some s) = s) as ->.
  { unfold prepared. rewrite norm_spaces_collapsed by done.
    by apply replace_absent. }
  apply accept_Some in Ha as Hb. destruct Hb as (_ & _ & Hb).
  apply is_bad_location_nonempty in Hb.
  destruct s; [done|]. simpl negb. by rewrite Hsep.
Qed.

(** C5, as amended.  [normalize_location] is idempotent on [None] and on
    every string with at most one separator and no [TBA] next to it. *)
Theorem normalize_location_idempotent x :
  plain x → normalize_location (normalize_location x) = normalize_location x.
Proof.
  unfold plain. intros Hp.
  destruct (normalize_location x) as [j|] eqn:Hn; [|done].
  rewrite normalize_location_unfold in Hn.
  destruct (truthy x); [cbn [negb] in Hn|done].
  destruct (contains _ (prepared x)) eqn:Hsep.
  - destruct (prepared_sides x Hsep) as (l & r & Hparts & Hs & Hl0 & Hl & Hr0 & Hr).
    rewrite Hparts in Hn, Hp. destruct Hp as (Htl & Htr & Hj).
    rewrite Htl, Htr in Hn. cbn [andb] in Hn.
    apply accept_Some in Hn as Hn'. destruct Hn' as (-> & _ & _).
    apply normalize_location_fixed; [by apply collapsed_join| |done..].
    rewrite contains_join; [|done|by_computing..].
    rewrite <-Hs. apply replace_gone.
  - apply accept_Some in Hn as Hn'. destruct Hn' as (-> & _ & _).
    apply normalize_location_fixed;
      [apply collapsed_prepared|apply replace_gone|done..].
Qed.
End Normaliser.

(** ** The dates of a WPA event *)

(** The end of an emitted record is not before its start exactly if the
    event has no [DTEND], or one on a later day than its [DTSTART]. *)
Lemma wpa_record_dates from_d label feed_url comp t :
  wpa_record from_d label feed_url comp = Some t →
  start t = ics_dt_to_date (ev_dtstart comp)
  ∧ ((start t <= end_ t)%Z
     ↔ match ev_dtend comp with
       | None => True
       | Some dtend => (ics_dt_to_date (ev_dtstart comp) < ics_dt_to_date dtend)%Z
       end).
Proof.
  unfold wpa_record. destruct (negb (truthy _)); [done|].
  destruct (negb (is_upcoming_or_ongoing _ _ _)); [done|].
  intros [= <-]. simpl. split; [done|].
  destruct (ev_dtend comp); [lia|]. split; [done|lia].
Qed.

(** ** The code on sample data *)

Section Samples.
Local Existing Instance ascii_tables.

(** The examples of the specification. *)
Example normalize_examples :
  normalize_location (Some (lit "00")) = None
  ∧ normalize_location (Some (lit "Subscribe to Calendar")) = None
  ∧ normalize_location (Some (lit "Paris / France")) = Some (lit "Paris, France")
  ∧ normalize_location (Some (lit "Paris / TBA")) = Some (lit "Paris")
  ∧ normalize_location (Some (lit "TBA / tba")) = None.
Proof. by vm_compute. Qed.

Example cross_fill_example :
  location <$> reconcile [us_open; us_open_qualifier]
  = [Some (lit "Las Vegas, USA"); Some (lit "Las Vegas, USA")].
Proof. by vm_compute. Qed.

(** The reconciliation of three records, two of them of one key. *)
Lemma precision_non_decreasing_witness :
  us_open ∈ [us_open; us_open_coarse; us_open_qualifier]
  ∧ ∃ v, v ∈ reconcile [us_open; us_open_coarse; us_open_qualifier]
         ∧ identity v = identity us_open
         ∧ location_precision (location us_open)
           ≤ location_precision (location v).
Proof.
  assert (us_open ∈ [us_open; us_open_coarse; us_open_qualifier]) as Hin
    by left.
  split; [exact Hin|].
  exact (proj1 (proj2 (precision_non_decreasing _ _ Hin))).
Defined.

(** A tie of [choose_better], and the cross-fill of two records. *)
Lemma location_only_merge_witness :
  location_precision (location us_open_qualifier)
  = location_precision (location us_open_qualifier)
  ∧ same_frame (choose_better us_open_qualifier us_open_qualifier)
      us_open_qualifier
  ∧ Forall2 (λ c v, same_frame v c.2) at_028 (cross_fill_locations at_028).
Proof.
  split; [reflexivity|].
  apply (location_only_merge us_open_qualifier us_open_qualifier at_028).
  reflexivity.
Defined.

(** Two records with 7 of 25 tokens in common, and two with 27 of 100:
    the first of the former gets the location of the second, the first
    of the latter stays as it is. *)
Lemma cross_fill_threshold_witness :
  cross_fill_locations at_028 !! 0
  = Some (titled (words 0 16) (mkdate 2026 3 5) (Some "Las Vegas, USA")%string)
  ∧ cross_fill_locations at_027 !! 0
    = Some (titled (words 0 64) (mkdate 2026 3 5) None).
Proof.
  split.
  - refine (proj1 (cross_fill_threshold at_028 0
                     (0, titled (words 0 16) (mkdate 2026 3 5) None)
                     (1, titled (words 9 16) (mkdate 2026 3 6)
                           (Some "Las Vegas, USA")%string)
                     eq_refl _ _ _ _) _).
    + by vm_compute.
    + right. left.
    + unfold qualifies. by vm_compute.
    + intros c' Hin Hq. apply elem_of_cons in Hin as [->|Hin].
      * by destruct Hq as [[] _].
      * apply elem_of_cons in Hin as [->|Hin]; [by left|].
        by apply elem_of_nil in Hin.
    + by vm_compute.
  - refine (proj2 (cross_fill_threshold at_027 0
                     (0, titled (words 0 64) (mkdate 2026 3 5) None)
                     (1, titled (words 37 63) (mkdate 2026 3 6)
                           (Some "Las Vegas, USA")%string)
                     eq_refl _ _ _ _) _).
    + by vm_compute.
    + right. left.
    + unfold qualifies. by vm_compute.
    + intros c' Hin Hq. apply elem_of_cons in Hin as [->|Hin].
      * by destruct Hq as [[] _].
      * apply elem_of_cons in Hin as [->|Hin]; [by left|].
        by apply elem_of_nil in Hin.
    + by vm_compute.
Defined.

(** The example ["Paris / France"] of the specification. *)
Lemma normalize_location_nonempty_witness :
  normalize_location (Some (lit "Paris / France")) = Some (lit "Paris, France")
  ∧ lit "Paris, France" ≠ []
  ∧ collapsed (lit "Paris, France")
  ∧ norm_spaces (Some (lit "Paris, France")) = lit "Paris, France".
Proof.
  assert (normalize_location (Some (lit "Paris / France"))
          = Some (lit "Paris, France")) as Hn by (by vm_compute).
  split; [exact Hn|]. exact (normalize_location_nonempty _ _ Hn).
Defined.

(** One separator, no [TBA]: the second pass changes nothing. *)
Lemma normalize_location_idempotent_witness :
  plain (Some (lit "Paris / France"))
  ∧ normalize_location (normalize_location (Some (lit "Paris / France")))
    = normalize_location (Some (lit "Paris / France")).
Proof.
  assert (plain (Some (lit "Paris / France"))) as Hp by (by vm_compute).
  split; [exact Hp|]. exact (normalize_location_idempotent _ Hp).
Defined.

(** C5, as stated, fails: with two separators the second pass joins
    what the first one left. *)
Lemma normalize_location_not_idempotent :
  normalize_location (Some (lit "A / B / C")) = Some (lit "A, B / C")
  ∧ normalize_location (Some (lit "A, B / C")) = Some (lit "A, B, C")
  ∧ normalize_location (normalize_location (Some (lit "A / B / C")))
    ≠ normalize_location (Some (lit "A / B / C")).
Proof. by vm_compute. Qed.

(** C4 at ["TBA / Subscribe to Calendar"]: the input holds a term of the
    denylist as a word, and so does what is returned, which the
    function rejects when it is given it. *)
Lemma normalize_location_TBA_denylisted :
  BAD_LOCATION_RE_search (lit "TBA / Subscribe to Calendar") = true
  ∧ normalize_location (Some (lit "TBA / Subscribe to Calendar"))
    = Some (lit "Subscribe to Calendar")
  ∧ is_bad_location (Some (lit "Subscribe to Calendar")) = true
  ∧ normalize_location (Some (lit "Subscribe to Calendar")) = None.
Proof. by vm_compute. Qed.

(** C7 at a timed event of one day: the record that is emitted ends the
    day before it starts. *)
Lemma wpa_record_end_before_start :
  ∃ t, wpa_record (mkdate 2026 1 1) (lit "WPA_ALL")
         (lit "https://wpapool.com/?mec-ical-feed=1") one_day_event = Some t
       ∧ start t = mkdate 2026 3 1
       ∧ end_ t = mkdate 2026 2 28
       ∧ (end_ t < start t)%Z.
Proof. eexists. by vm_compute. Qed.
End Samples.

Module ConflictSamples.
Import ExportIcs ExportIcsSample ConflictProps.
Local Open Scope Z_scope.

(** The example of the specification: a common boundary day is a
    conflict, the next day is not. *)
Lemma conflict_set_exact_witness :
  (∀ r, r ∈ [apr_10_12; apr_12_15] → start r <= end_ r)
  ∧ 0%nat ∈ build_conflict_set [apr_10_12; apr_12_15]
  ∧ 1%nat ∈ build_conflict_set [apr_10_12; apr_12_15].
Proof.
  assert (∀ r, r ∈ [apr_10_12; apr_12_15] → start r <= end_ r) as Hwf.
  { intros r Hin. apply elem_of_cons in Hin as [->|Hin]; [by vm_compute|].
    apply elem_of_cons in Hin as [->|Hin]; [by vm_compute|].
    by apply elem_of_nil in Hin. }
  split; [exact Hwf|]. split.
  - apply (proj2 (conflict_set_exact [apr_10_12; apr_12_15] 0 Hwf)).
    exists 1%nat, apr_10_12, apr_12_15. split_and!; try done.
    exists (mkdate 2026 4 12). by vm_compute.
  - apply (proj2 (conflict_set_exact [apr_10_12; apr_12_15] 1 Hwf)).
    exists 0%nat, apr_12_15, apr_10_12. split_and!; try done.
    exists (mkdate 2026 4 12). by vm_compute.
Defined.

Example no_conflict_next_day : build_conflict_set [apr_10_12; apr_13_15] = ∅.
Proof. by vm_compute. Qed.

(** C3, as stated for every list of rows, fails: a row whose end is
    before its start has no day at all, and the test of the loop,
    [a.start <= b.end and b.start <= a.end], still holds of it and of a
    row around it.  Both indices are in the set, and neither row has a
    day in common with the other. *)
Lemma conflict_set_not_exact :
  build_conflict_set [apr_15_25; apr_20_18] = {[0%nat; 1%nat]}
  ∧ ¬ shares_day apr_15_25 apr_20_18
  ∧ ¬ (∀ i : nat,
         i ∈ build_conflict_set [apr_15_25; apr_20_18]
         ↔ ∃ j r s, j ≠ i ∧ [apr_15_25; apr_20_18] !! i = Some r
                    ∧ [apr_15_25; apr_20_18] !! j = Some s ∧ shares_day r s).
Proof.
  assert (end_ apr_20_18 < start apr_20_18) as Hlt by (by vm_compute).
  assert (build_conflict_set [apr_15_25; apr_20_18] = {[0%nat; 1%nat]}) as Hset
    by by_computing.
  split_and!; [exact Hset| |].
  - intros (d & _ & Hd). lia.
  - intros Hall.
    destruct (proj1 (Hall 0%nat)) as (j & r & s & Hj & Hr & Hs & d & Hd & Hd').
    { rewrite Hset. apply elem_of_union_l. by apply elem_of_singleton. }
    destruct j as [|[|j]]; [done| |done].
    injection Hr as <-. injection Hs as <-. lia.
Qed.
End ConflictSamples.

(** * Further properties *)

(** ** White space normalisation *)

Section NormSpaces.
Implicit Types (s r : str) (c d : N) (x : option str).

Lemma spaced_lookup s i c :
  spaced s = true → s !! i = Some c → isspace c = true →
  c = 32%N ∧ ∃ d, s !! S i = Some d ∧ isspace d = false.
Proof.
  revert i. induction s as [|a s IH]; intros i Hs Hi Hc; [done|].
  rewrite spaced_cons in Hs. apply andb_true_iff in Hs as [Ha Hs].
  destruct i as [|i]; simpl in Hi.
  - injection Hi as ->. rewrite Hc in Ha.
    apply andb_true_iff in Ha as [->%N.eqb_eq Hn]. split; [done|].
    destruct s as [|d s]; [done|]. exists d. split; [done|].
    by apply negb_true_iff in Hn.
  - by apply (IH i).
Qed.

Lemma filter_lstrip s :
  filter (λ c, isspace c = false) (lstrip_of isspace s)
  = filter (λ c, isspace c = false) s.
Proof.
  induction s as [|c s IH]; simpl; [done|].
  destruct (isspace c) eqn:Hc; [|done].
  rewrite filter_cons_False; [done|]. by rewrite Hc.
Qed.

Lemma filter_rstrip s :
  filter (λ c, isspace c = false) (rstrip_of isspace s)
  = filter (λ c, isspace c = false) s.
Proof.
  induction s as [|c s IH]; simpl; [done|].
  rewrite filter_cons, <-IH.
  destruct (rstrip_of isspace s) as [|d r] eqn:Hr.
  - destruct (isspace c) eqn:Hc.
    + by rewrite decide_False.
    + rewrite decide_True by done. by rewrite filter_cons, decide_True.
  - rewrite (filter_cons _ c). by destruct (decide (isspace c = false)).
Qed.

Lemma filter_sub_spaces b s :
  filter (λ c, isspace c = false) (sub_runs isspace 32%N b s)
  = filter (λ c, isspace c = false) s.
Proof.
  revert b. induction s as [|c s IH]; intros b; simpl; [done|].
  rewrite (filter_cons _ c).
  destruct (isspace c) eqn:Hc.
  - rewrite decide_False by done.
    destruct b; [done|]. rewrite filter_cons_False; [done|]. by vm_compute.
  - rewrite decide_True by done. by rewrite filter_cons, decide_True, IH.
Qed.

Lemma filter_norm_spaces s :
  filter (λ c, isspace c = false) (norm_spaces (Some s))
  = filter (λ c, isspace c = false) s.
Proof.
  unfold norm_spaces, strip. simpl.
  by rewrite filter_sub_spaces, filter_rstrip, filter_lstrip.
Qed.

Lemma elem_of_norm_spaces s c :
  isspace c = false → c ∈ norm_spaces (Some s) ↔ c ∈ s.
Proof.
  intros Hc.
  assert (∀ l : str, c ∈ l ↔ c ∈ filter (λ c, isspace c = false) l) as Hf.
  { intros l. rewrite list_elem_of_filter. tauto. }
  by rewrite (Hf (norm_spaces _)), (Hf s), filter_norm_spaces.
Qed.

Lemma contains_char c s : contains [c] s = bool_decide (c ∈ s).
Proof.
  induction s as [|a s IH]; [done|]. rewrite contains_cons, IH, startswith_cons.
  simpl. rewrite andb_true_r.
  destruct (N.eqb_spec c a) as [->|Hne]; simpl.
  - symmetry. apply bool_decide_eq_true. left.
  - apply bool_decide_ext. rewrite elem_of_cons. tauto.
Qed.

Lemma norm_spaces_blank s :
  (∀ c, c ∈ s → isspace c = true) → norm_spaces (Some s) = [].
Proof.
  intros Hs. unfold norm_spaces, strip. simpl.
  assert (lstrip_of isspace s = []) as ->; [|done].
  induction s as [|c s IH]; simpl; [done|].
  rewrite (Hs c) by left. apply IH. intros d Hd. apply Hs. by right.
Qed.

Lemma norm_spaces_again x :
  norm_spaces (Some (norm_spaces x)) = norm_spaces x.
Proof. apply norm_spaces_collapsed, collapsed_norm_spaces. Qed.

(** X1. [norm_spaces] is idempotent. *)
Theorem norm_spaces_idempotent x :
  norm_spaces (Some (norm_spaces x)) = norm_spaces x.
Proof. apply norm_spaces_collapsed, collapsed_norm_spaces. Qed.

(** X2. In what [norm_spaces] returns, a white space character is a
    space, is not the first character, and is followed by a character
    that is not white space: no white space at either end, and none but
    single spaces inside. *)
Theorem norm_spaces_shape x i c :
  norm_spaces x !! i = Some c → isspace c = true →
  c = 32%N ∧ 0 < i ∧ ∃ d, norm_spaces x !! S i = Some d ∧ isspace d = false.
Proof.
  intros Hi Hc. destruct (collapsed_norm_spaces x) as [Hn Hs].
  destruct (spaced_lookup _ _ _ Hs Hi Hc) as [-> Hd]. split_and!; [done| |done].
  destruct i as [|i]; [|lia]. destruct Hn as [Hn|Hn]; [by rewrite Hn in Hi|].
  destruct (norm_spaces x) as [|a r]; [done|]. simpl in *.
  injection Hi as ->. by rewrite Hc in Hn.
Qed.

(** X3. [norm_spaces] keeps the characters that are not white space, in
    their order. *)
Theorem norm_spaces_keeps_text s :
  filter (λ c, isspace c = false) (norm_spaces (Some s))
  = filter (λ c, isspace c = false) s.
Proof. apply filter_norm_spaces. Qed.

Lemma location_precision_comma c s :
  location_precision (Some (c :: s))
  = if bool_decide (44%N ∈ c :: s) then 2 else 1.
Proof.
  unfold location_precision. cbn [truthy negb].
  change (lit ",") with [44%N]. rewrite contains_char.
  by rewrite (bool_decide_ext _ _ (elem_of_norm_spaces (c :: s) 44%N eq_refl)).
Qed.

(** X4. [location_precision] does not depend on the white space: it is 0
    for [None] and for the empty string, and otherwise 2 if the string
    itself holds a comma and 1 if not. *)
Theorem location_precision_raw x :
  location_precision x
  = match x with
    | None | Some [] => 0
    | Some s => if bool_decide (44%N ∈ s) then 2 else 1
    end.
Proof.
  destruct x as [[|c s]|]; [done| |done]. apply location_precision_comma.
Qed.
End NormSpaces.

Lemma contains_app_r p l m : contains p (l ++ m) = false → contains p m = false.
Proof.
  induction l as [|c l IH]; [done|]. rewrite <-app_comm_cons, contains_cons.
  intros [_ ?]%orb_false_iff. auto.
Qed.

Lemma startswith_app_l p l m : startswith p l = true → startswith p (l ++ m) = true.
Proof.
  revert l. induction p as [|a p IH]; intros [|c l]; simpl; try done.
  rewrite !andb_true_iff. intros [? ?]. auto.
Qed.

Lemma contains_app_l p l m : contains p (l ++ m) = false → contains p l = false.
Proof.
  induction l as [|c l IH].
  - destruct p; [by destruct m|done].
  - rewrite <-app_comm_cons, !contains_cons.
    intros [Hs Hc]%orb_false_iff. rewrite IH by done. rewrite orb_false_r.
    destruct (startswith p (c :: l)) eqn:Hs'; [|done].
    apply (startswith_app_l _ _ m) in Hs'. simpl in *. congruence.
Qed.

(** ** More on the location normaliser *)

Section NormaliserMore.
Context `{UnicodeData}.
Implicit Types (x : option str) (s l r : str).

Lemma accept_nil : accept [] = None.
Proof. unfold accept. by destruct (is_TBA []). Qed.

Lemma prepared_norm_spaces s :
  prepared (Some (norm_spaces (Some s))) = prepared (Some s).
Proof. unfold prepared. by rewrite norm_spaces_again. Qed.

Lemma normalize_location_prepared_nil x : prepared x = [] → normalize_location x = None.
Proof.
  intros Hp. rewrite normalize_location_unfold, Hp.
  destruct (negb (truthy x)); [done|]. cbn [contains startswith lit].
  change (contains (lit " / ") []) with false. cbv iota. apply accept_nil.
Qed.

(** X5. Empty input, and input of white space only, gives [None]. *)
Theorem normalize_location_blank s :
  (∀ c, c ∈ s → isspace c = true) → normalize_location (Some s) = None.
Proof.
  intros Hs. apply normalize_location_prepared_nil.
  unfold prepared. by rewrite norm_spaces_blank.
Qed.

(** X6. The white space of the input does not matter beyond its
    normalisation: [is_bad_location] and [normalize_location] give the
    same for a string and for what [norm_spaces] makes of it. *)
Theorem normalize_location_norm_spaces s :
  is_bad_location (Some (norm_spaces (Some s))) = is_bad_location (Some s)
  ∧ normalize_location (Some (norm_spaces (Some s))) = normalize_location (Some s).
Proof.
  split.
  - unfold is_bad_location. rewrite norm_spaces_again.
    destruct s as [|c s]; [done|].
    destruct (norm_spaces (Some (c :: s))) as [|d r] eqn:Hn; done.
  - destruct (norm_spaces (Some s)) as [|d r] eqn:Hn.
    + symmetry. apply normalize_location_prepared_nil. unfold prepared.
      by rewrite Hn.
    + rewrite <-Hn, !normalize_location_unfold, prepared_norm_spaces.
      rewrite Hn. by destruct s.
Qed.

(** The ways in which a location is returned. *)
Lemma normalize_location_cases x r :
  normalize_location x = Some r →
  (contains (lit " / ") (prepared x) = false ∧ r = prepared x
   ∧ is_bad_location (Some r) = false)
  ∨ ∃ lft rgt,
      strip <$> split1 (lit " / ") (prepared x) = [lft; rgt]
      ∧ prepared x = lft ++ lit " / " ++ rgt
      ∧ lft ≠ [] ∧ rgt ≠ []
      ∧ ((is_TBA lft = true ∧ is_TBA rgt = false ∧ r = rgt)
         ∨ (is_TBA lft = false ∧ is_TBA rgt = true ∧ r = lft)
         ∨ (is_TBA lft = false ∧ is_TBA rgt = false
            ∧ r = lft ++ lit ", " ++ rgt)).
Proof.
  rewrite normalize_location_unfold.
  destruct (truthy x); [cbn [negb]|done].
  destruct (contains (lit " / ") (prepared x)) eqn:Hsep.
  - destruct (prepared_sides x Hsep) as (l & r' & Hparts & Hs & Hl0 & _ & Hr0 & _).
    rewrite Hparts. intros Hn. right. exists l, r'. split_and!; try done.
    destruct (is_TBA l), (is_TBA r'); cbn [andb] in Hn; try done.
    + injection Hn as <-. by left.
    + injection Hn as <-. right; by left.
    + apply accept_Some in Hn as (-> & _). right; by right.
  - intros (-> & _ & Hb)%accept_Some. by left.
Qed.

(** X7. The spelling correction is never undone: what is returned has no
    ["Tukey"] in it. *)
Theorem normalize_location_spelling x r :
  normalize_location x = Some r → contains (lit "Tukey") r = false.
Proof.
  pose proof (replace_gone (norm_spaces x)) as Hg. fold (prepared x) in Hg.
  intros [(_ & -> & _)|(l & r' & _ & Hs & _ & _ & Hr)]%normalize_location_cases;
    [done|].
  rewrite Hs in Hg.
  pose proof (contains_app_l _ _ _ Hg) as Hl.
  pose proof (contains_app_r _ _ _ (contains_app_r _ _ _ Hg)) as Hr'.
  destruct Hr as [(_ & _ & ->)|[(_ & _ & ->)|(_ & _ & ->)]]; [done..|].
  rewrite contains_join; [done|done|by_computing..].
Qed.

(** X8. A location that is returned has precision 1 or 2, never 0; and
    when it was joined from the two sides of a separator, it has
    precision 2. *)
Theorem normalize_location_precision x r :
  normalize_location x = Some r →
  1 ≤ location_precision (Some r)
  ∧ (∀ lft rgt, strip <$> split1 (lit " / ") (prepared x) = [lft; rgt] →
                is_TBA lft = false → is_TBA rgt = false →
                r = lft ++ lit ", " ++ rgt ∧ location_precision (Some r) = 2).
Proof.
  intros Hn. apply normalize_location_cases in Hn as Hc.
  assert (∀ l r' : str, location_precision (Some (l ++ lit ", " ++ r')) = 2) as H2.
  { intros l r'.
    destruct (l ++ lit ", " ++ r') as [|c s] eqn:Hj; [by destruct l|].
    rewrite location_precision_comma, bool_decide_true; [done|]. rewrite <-Hj.
    rewrite !elem_of_app. right; left. by_computing. }
  split.
  - assert (r ≠ []) as Hr.
    { destruct Hc as [(_ & _ & Hb)|(l & r' & _ & _ & Hl0 & Hr0 & Hr)].
      - by apply is_bad_location_nonempty.
      - destruct Hr as [(_ & _ & ->)|[(_ & _ & ->)|(_ & _ & ->)]]; [done..|].
        by destruct l. }
    destruct r; [done|]. rewrite location_precision_comma. case_bool_decide; lia.
  - intros l r' Hparts Hl Hr.
    destruct Hc as [(Hsep & _)|(l' & r'' & Hparts' & _ & _ & _ & Hc)].
    + apply split1_not_contains in Hsep. by rewrite Hsep in Hparts.
    + rewrite Hparts in Hparts'. injection Hparts' as <- <-.
      destruct Hc as [(? & _)|[(_ & ? & _)|(_ & _ & ->)]]; [congruence..|].
      by split.
Qed.
End NormaliserMore.

(** ** Slugs and title tokens *)

(** Facts on classes of characters, by cases on the comparisons. *)
Ltac char_cases :=
  repeat (simpl in *;
          match goal with
          | |- context [(?a <=? ?b)%N] => destruct (N.leb_spec a b)
          | |- context [(?a =? ?b)%N] => destruct (N.eqb_spec a b)
          | H : context [(?a <=? ?b)%N] |- _ => destruct (N.leb_spec a b)
          | H : context [(?a =? ?b)%N] |- _ => destruct (N.eqb_spec a b)
          end);
  simpl in *; try done; try lia.

Section Runs.
Context (f : N → bool).
Implicit Types (s r : str) (c d : N).

Lemma sep_ok_cons c r :
  sep_ok f (c :: r) = (if f c then starts_with_non f r else true) && sep_ok f r.
Proof. done. Qed.

Lemma no_double_cons c r :
  no_double f (c :: r)
  = negb (f c && match r with [] => false | d :: _ => f d end) && no_double f r.
Proof. done. Qed.

Lemma lstrip_of_starts s :
  lstrip_of f s = [] ∨ starts_with_non f (lstrip_of f s) = true.
Proof.
  induction s as [|c s IH]; simpl; [by left|].
  destruct (f c) eqn:Hc; [done|]. right. simpl. by rewrite Hc.
Qed.

Lemma lstrip_of_suffix s : ∃ l, s = l ++ lstrip_of f s.
Proof.
  induction s as [|c s [l IH]]; simpl; [by exists []|].
  destruct (f c); [|by exists []]. exists (c :: l). simpl. by f_equal.
Qed.

Lemma rstrip_of_prefix s : ∃ l, s = rstrip_of f s ++ l.
Proof.
  induction s as [|c s [l IH]]; simpl; [by exists []|].
  destruct (rstrip_of f s) as [|d r].
  - destruct (f c); [by exists (c :: s)|]. exists s. done.
  - exists l. simpl in *. by f_equal.
Qed.

Lemma no_double_app_r l s : no_double f (l ++ s) = true → no_double f s = true.
Proof.
  induction l as [|c l IH]; [done|]. rewrite <-app_comm_cons, no_double_cons.
  intros [_ ?]%andb_true_iff. auto.
Qed.

(** Cutting the characters of the class off the end of a string without
    two of them in a row. *)
Lemma rstrip_of_sep_ok s : no_double f s = true → sep_ok f (rstrip_of f s) = true.
Proof.
  induction s as [|c s IH]; [done|]. rewrite no_double_cons.
  intros [Hc Hs]%andb_true_iff. specialize (IH Hs). simpl.
  destruct (rstrip_of_prefix s) as [l Hl].
  destruct (rstrip_of f s) as [|d r].
  - destruct (f c) eqn:Hfc; [done|]. simpl. by rewrite Hfc.
  - rewrite sep_ok_cons, IH, andb_true_r.
    destruct (f c); [|done]. rewrite Hl in Hc. simpl in *. done.
Qed.

Lemma rstrip_of_starts s :
  starts_with_non f s = true → starts_with_non f (rstrip_of f s) = true.
Proof.
  destruct s as [|c s]; simpl; [done|]. intros Hc.
  destruct (rstrip_of f s); [|done].
  rewrite negb_true_iff in Hc. rewrite Hc. simpl. by rewrite Hc.
Qed.

(** A string of that shape is left as it is. *)
Lemma lstrip_of_id s : starts_with_non f s = true → lstrip_of f s = s.
Proof. destruct s as [|c s]; simpl; [done|]. by destruct (f c). Qed.

Lemma rstrip_of_id s : sep_ok f s = true → rstrip_of f s = s.
Proof.
  induction s as [|c s IH]; [done|]. rewrite sep_ok_cons.
  intros [Hc Hs]%andb_true_iff. simpl. rewrite IH by done.
  destruct s as [|d s]; [|done]. by destruct (f c).
Qed.

Lemma sub_runs_id by_ s :
  f by_ = true → sep_ok f s = true → (∀ c, c ∈ s → f c = true → c = by_) →
  sub_runs f by_ false s = s
  ∧ (starts_with_non f s = true → sub_runs f by_ true s = s).
Proof.
  intros Hby. induction s as [|c s IH]; [done|]. rewrite sep_ok_cons.
  intros [Hc Hs]%andb_true_iff Hall.
  destruct IH as [IH1 IH2]; [done|intros d Hd; apply Hall; by right|]. simpl.
  destruct (f c) eqn:Hfc; simpl.
  - split; [|done]. rewrite (Hall c) by (done || left). by rewrite IH2.
  - by rewrite IH1.
Qed.

(** What the replacement of the runs returns. *)
Lemma sub_runs_shape by_ b s :
  f by_ = true →
  no_double f (sub_runs f by_ b s) = true
  ∧ (b = true → match sub_runs f by_ b s with [] => True | c :: _ => f c = false end)
  ∧ ∀ c, c ∈ sub_runs f by_ b s → c = by_ ∨ (f c = false ∧ c ∈ s).
Proof.
  intros Hby. revert b. induction s as [|c s IH]; intros b.
  { split_and!; [done..|]. intros c Hc. by apply elem_of_nil in Hc. }
  simpl. destruct (f c) eqn:Hfc.
  - destruct (IH true) as (Hnd & Hh & Hin).
    assert (∀ d, d ∈ sub_runs f by_ true s → d = by_ ∨ f d = false ∧ d ∈ c :: s)
      as Hin'.
    { intros d [?|[? ?]]%Hin; [by left|right]. split; [done|by right]. }
    destruct b.
    + split_and!; [done|done|done].
    + split_and!; [|done|].
      * rewrite no_double_cons, Hnd, andb_true_r, Hby. simpl.
        specialize (Hh eq_refl). destruct (sub_runs f by_ true s); [done|].
        by rewrite Hh.
      * intros d [->|Hd]%elem_of_cons; [by left|auto].
  - destruct (IH false) as (Hnd & _ & Hin). split_and!.
    + by rewrite no_double_cons, Hfc, Hnd.
    + done.
    + intros d [->|Hd]%elem_of_cons.
      * right. split; [done|left].
      * destruct (Hin d Hd) as [?|[? ?]]; [by left|right].
        split; [done|by right].
Qed.
End Runs.

Lemma sep_ok_fmap (f : N → bool) (g : N → N) s :
  (∀ c, f (g c) = f c) → sep_ok f (g <$> s) = sep_ok f s.
Proof.
  intros Hg. induction s as [|c s IH]; [done|].
  rewrite fmap_cons, !sep_ok_cons, IH, Hg. by destruct s; simpl; rewrite ?Hg.
Qed.

Lemma sep_ok_last (f : N → bool) s c : sep_ok f s = true → last s = Some c → f c = false.
Proof.
  induction s as [|a s IH]; [done|]. rewrite sep_ok_cons.
  intros [Ha Hs]%andb_true_iff. destruct s as [|d s].
  - intros [= ->]. by destruct (f c).
  - rewrite last_cons_cons. auto.
Qed.

Lemma sep_ok_no_pair (f : N → bool) c s :
  f c = true → sep_ok f s = true → contains [c; c] s = false.
Proof.
  intros Hc. induction s as [|a s IH]; [done|]. rewrite sep_ok_cons.
  intros [Ha Hs]%andb_true_iff. rewrite contains_cons, IH, orb_false_r by done.
  rewrite startswith_cons. destruct (N.eqb_spec c a) as [<-|]; [|done].
  rewrite Hc in Ha. destruct s as [|d s]; [done|]. rewrite startswith_cons.
  destruct (N.eqb_spec c d) as [<-|]; [|done]. simpl in Ha. by rewrite Hc in Ha.
Qed.

Lemma split_char_pieces sep s x :
  x ∈ split_char sep s → (sep ∉ x) ∧ (∀ c, c ∈ x → c ∈ s).
Proof.
  revert x. induction s as [|c s IH]; intros x; simpl.
  - intros ->%list_elem_of_singleton. split; [apply not_elem_of_nil|done].
  - destruct (N.eqb_spec c sep) as [->|Hne].
    + intros [->|Hx]%elem_of_cons.
      * split; [apply not_elem_of_nil|]. intros d Hd. by apply elem_of_nil in Hd.
      * destruct (IH x Hx) as [? Hin]. split; [done|]. intros d Hd. right. auto.
    + destruct (split_char sep s) as [|y ys] eqn:Hsp.
      * intros ->%list_elem_of_singleton. split.
        -- by intros ->%list_elem_of_singleton.
        -- intros d ->%list_elem_of_singleton. left.
      * intros [->|Hx]%elem_of_cons.
        -- destruct (IH y) as [Hy Hin]; [left|]. split.
           ++ rewrite not_elem_of_cons. split; [congruence|done].
           ++ intros d [->|Hd]%elem_of_cons; [left|right; auto].
        -- destruct (IH x) as [? Hin]; [by right|]. split; [done|].
           intros d Hd. right. auto.
Qed.

(** The runs of a string that is made like a slug are its hyphens. *)
Lemma sub_runs_slug r b :
  (∀ c, c ∈ r → negb (ascii_alnum c) = is_hyphen c) →
  sep_ok is_hyphen r = true →
  (b = true → r = [] ∨ starts_with_non is_hyphen r = true) →
  sub_runs (λ c, negb (ascii_alnum c)) 45%N b r = r.
Proof.
  revert b. induction r as [|c r IH]; intros b Hcls Hs Hb; [done|].
  rewrite sep_ok_cons in Hs. apply andb_true_iff in Hs as [Hc Hs].
  simpl. rewrite (Hcls c) by left.
  assert (∀ b, (b = true → r = [] ∨ starts_with_non is_hyphen r = true) →
               sub_runs (λ c, negb (ascii_alnum c)) 45%N b r = r) as IH'.
  { intros b' Hb'. apply IH; [|done..]. intros d Hd. apply Hcls. by right. }
  destruct (is_hyphen c) eqn:Hh.
  - apply N.eqb_eq in Hh as Hc45. subst c. destruct b.
    + destruct (Hb eq_refl) as [?|Hn]; [done|]. by simpl in Hn.
    + rewrite IH'; [done|]. intros _. by right.
  - by rewrite IH'.
Qed.

Section SlugProps.
Context `{UnicodeData}.
Implicit Types (s r : str) (c : N).

Lemma slug_chars c :
  c = 45%N ∨ negb (ascii_alnum c) = false →
  c = 45%N ∨ slug_alnum (ascii_lower c) = true.
Proof.
  intros [->|Hc]; [by left|]. right.
  unfold ascii_alnum, ascii_lower, slug_alnum in *. char_cases.
Qed.

Lemma is_hyphen_lower c : is_hyphen (ascii_lower c) = is_hyphen c.
Proof. unfold is_hyphen, ascii_lower. char_cases. Qed.

Lemma slug_alnum_class c :
  slug_alnum c = true →
  negb (ascii_alnum c) = false ∧ is_hyphen c = false ∧ ascii_lower c = c.
Proof.
  unfold slug_alnum, ascii_alnum, is_hyphen, ascii_lower. intros Hc.
  split_and!; char_cases.
Qed.

(** The shape of a slug, for the proofs. *)
Lemma slug_ok s :
  (∀ c, c ∈ slug s → slug_alnum c = true ∨ c = 45%N)
  ∧ (slug s = [] ∨ starts_with_non is_hyphen (slug s) = true)
  ∧ sep_ok is_hyphen (slug s) = true.
Proof.
  unfold slug. set (u := sub_runs _ _ _ _).
  destruct (sub_runs_shape (λ c, negb (ascii_alnum c)) 45%N false (uni_nfkd_ascii s)
              eq_refl) as (Hnd & _ & Hin). fold u in Hnd, Hin.
  assert (no_double is_hyphen u = true) as Hnd'.
  { clear Hin. induction u as [|c u IH]; [done|].
    rewrite no_double_cons in Hnd |- *.
    apply andb_true_iff in Hnd as [Hc Hu]. rewrite IH, andb_true_r by done.
    destruct (is_hyphen c) eqn:Hh; [|done]. apply N.eqb_eq in Hh as ->.
    destruct u as [|d u]; [done|]. simpl in *.
    destruct (is_hyphen d) eqn:Hd; [|done]. by apply N.eqb_eq in Hd as ->. }
  destruct (lstrip_of_suffix is_hyphen u) as [l Hl].
  destruct (rstrip_of_prefix is_hyphen (lstrip_of is_hyphen u)) as [l' Hl'].
  set (v := rstrip_of is_hyphen (lstrip_of is_hyphen u)) in *.
  assert (sep_ok is_hyphen v = true) as Hv.
  { apply rstrip_of_sep_ok. rewrite Hl in Hnd'. by apply no_double_app_r in Hnd'. }
  split_and!.
  - intros c (d & -> & Hd)%list_elem_of_fmap.
    assert (d ∈ u) as Hu.
    { rewrite Hl, Hl'. rewrite !elem_of_app. right; by left. }
    destruct (slug_chars d) as [->|?]; [|by right|by left].
    destruct (Hin d Hu) as [?|[? _]]; [by left|by right].
  - destruct (lstrip_of_starts is_hyphen u) as [Hn|Hn].
    + left. unfold v. by rewrite Hn.
    + right. apply (rstrip_of_starts is_hyphen) in Hn. fold v in Hn.
      destruct v as [|c v]; [done|]. simpl in *. by rewrite is_hyphen_lower.
  - rewrite sep_ok_fmap; [done|apply is_hyphen_lower].
Qed.

(** X9. A slug is made of the characters [[a-z0-9]] and hyphens, does
    not begin or end with a hyphen, and has no two hyphens in a row. *)
Theorem slug_shape s :
  Forall (λ c, slug_alnum c = true ∨ c = 45%N) (slug s)
  ∧ startswith (lit "-") (slug s) = false
  ∧ last (slug s) ≠ Some 45%N
  ∧ contains (lit "--") (slug s) = false.
Proof.
  destruct (slug_ok s) as (Hc & Hh & Hs). split_and!.
  - by apply Forall_forall.
  - destruct Hh as [->|Hh]; [done|]. destruct (slug s) as [|c r]; [done|].
    change (lit "-") with [45%N]. rewrite startswith_cons.
    cbn [starts_with_non] in Hh. unfold is_hyphen in Hh.
    rewrite N.eqb_sym. by destruct (c =? 45)%N.
  - intros Hl. by apply (sep_ok_last _ _ _ Hs) in Hl.
  - by apply (sep_ok_no_pair is_hyphen).
Qed.

(** X10. [slug] is idempotent, NFKD leaving the text of a slug as it
    is. *)
Theorem slug_idempotent s :
  uni_nfkd_ascii (slug s) = slug s → slug (slug s) = slug s.
Proof.
  intros Hn. destruct (slug_ok s) as (Hc & Hh & Hs).
  unfold slug at 1. rewrite Hn.
  assert (∀ c, c ∈ slug s → negb (ascii_alnum c) = is_hyphen c) as Hcls.
  { intros c [Ha| ->]%Hc; [|done].
    apply slug_alnum_class in Ha as (-> & -> & _). done. }
  assert (∀ c, c ∈ slug s → ascii_lower c = c) as Hlow.
  { intros c [Ha| ->]%Hc; [|done]. by apply slug_alnum_class in Ha as (_ & _ & ->). }
  rewrite sub_runs_slug by auto.
  assert (lstrip_of is_hyphen (slug s) = slug s) as ->.
  { destruct Hh as [->|Hh]; [done|]. by apply lstrip_of_id. }
  rewrite rstrip_of_id by done.
  clear -Hlow. induction (slug s) as [|c r IH]; [done|].
  rewrite fmap_cons, Hlow, IH; [done| |left]. intros d Hd. apply Hlow. by right.
Qed.
End SlugProps.

Section TokenProps.
Context `{UnicodeData}.
Implicit Types (a b s : str).

(** X11. A title token has at least three characters, all of them in
    [[a-z0-9]]. *)
Theorem title_tokens_shape s tok :
  tok ∈ title_tokens s →
  3 ≤ length tok ∧ Forall (λ c, slug_alnum c = true) tok.
Proof.
  unfold title_tokens. rewrite elem_of_list_to_set, list_elem_of_filter.
  intros [Hlen Hin]. split; [done|].
  apply split_char_pieces in Hin as [Hsep Hsub].
  destruct (slug_ok (sub_years 0 None s)) as (Hc & _ & _).
  apply Forall_forall. intros c Hc'.
  destruct (Hc c (Hsub c Hc')) as [?| ->]; [done|]. by destruct Hsep.
Qed.

Lemma jaccard_unfold a b :
  jaccard a b
  = if bool_decide (title_tokens a = ∅) || bool_decide (title_tokens b = ∅)
    then 0%Q
    else (Z.of_nat (size (title_tokens a ∩ title_tokens b))
          # Pos.of_nat (size (title_tokens a ∪ title_tokens b)))%Q.
Proof. done. Qed.

Lemma Zpos_of_nat n : 0 < n → Z.pos (Pos.of_nat n) = Z.of_nat n.
Proof.
  intros Hn. rewrite <-positive_nat_Z, Nat2Pos.id; [done|lia].
Qed.

Lemma size_union_pos (A B : gset str) : A ≠ ∅ → 0 < size (A ∪ B).
Proof.
  intros HA. destruct (size (A ∪ B)) eqn:Hs; [|lia].
  apply size_empty_inv in Hs. destruct HA.
  apply set_eq. intros x. rewrite elem_of_empty. split; [|done].
  intros Hx. apply (not_elem_of_empty (C:=gset str) x), Hs, elem_of_union. by left.
Qed.

(** X12. The similarity is symmetric. *)
Theorem jaccard_symmetric a b : jaccard a b = jaccard b a.
Proof.
  rewrite !jaccard_unfold, orb_comm.
  by rewrite (comm_L (∩) (title_tokens a)), (comm_L (∪) (title_tokens a)).
Qed.

(** X13. The similarity lies between 0 and 1. *)
Theorem jaccard_range a b : (0 <= jaccard a b <= 1)%Q.
Proof.
  rewrite jaccard_unfold. destruct (_ || _) eqn:He; [done|].
  apply orb_false_iff in He as [Ha%bool_decide_eq_false _].
  pose proof (size_union_pos _ (title_tokens b) Ha) as Hpos.
  assert (size (title_tokens a ∩ title_tokens b)
          ≤ size (title_tokens a ∪ title_tokens b)) as Hle.
  { apply subseteq_size. etrans; [apply intersection_subseteq_l|].
    apply union_subseteq_l. }
  unfold Qle. simpl. rewrite Zpos_of_nat by done. lia.
Qed.

(** X14. The similarity is 1 exactly for two titles with the same set of
    tokens, not empty, and 0 exactly for two titles without a common
    token. *)
Theorem jaccard_extremes a b :
  ((jaccard a b == 1)%Q
   ↔ title_tokens a = title_tokens b ∧ title_tokens a ≠ ∅)
  ∧ ((jaccard a b == 0)%Q ↔ title_tokens a ∩ title_tokens b = ∅).
Proof.
  rewrite jaccard_unfold. destruct (_ || _) eqn:He.
  - apply orb_true_iff in He as He'. split.
    + split; [done|]. intros [Hab Ha]. rewrite <-Hab, orb_diag in He.
      by apply bool_decide_eq_true in He.
    + split; [|done]. intros _.
      destruct He' as [->%bool_decide_eq_true| ->%bool_decide_eq_true].
      * apply (left_absorb_L ∅ (∩)).
      * apply (right_absorb_L ∅ (∩)).
  - apply orb_false_iff in He as [Ha%bool_decide_eq_false Hb%bool_decide_eq_false].
    pose proof (size_union_pos _ (title_tokens b) Ha) as Hpos.
    unfold Qeq. simpl. rewrite Zpos_of_nat by done. split.
    + split.
      * intros Heq.
        assert (title_tokens a ∩ title_tokens b = title_tokens a ∪ title_tokens b)
          as Hiu.
        { apply set_subseteq_size_eq; [|lia].
          etrans; [apply intersection_subseteq_l|apply union_subseteq_l]. }
        split; [|done]. apply set_eq. intros x. split; intros Hx.
        -- assert (x ∈ title_tokens a ∩ title_tokens b) as Hx'.
           { rewrite Hiu. apply elem_of_union. by left. }
           by apply elem_of_intersection in Hx' as [_ ?].
        -- assert (x ∈ title_tokens a ∩ title_tokens b) as Hx'.
           { rewrite Hiu. apply elem_of_union. by right. }
           by apply elem_of_intersection in Hx' as [? _].
      * intros [<- _]. rewrite (idemp_L (∩)), (idemp_L (∪)). lia.
    + split.
      * intros Hz. apply leibniz_equiv, size_empty_inv. lia.
      * intros ->. rewrite size_empty. lia.
Qed.
End TokenProps.

(** ** More on dedup *)

Lemma choose_better_pick a b :
  choose_better a b
  = if (location_precision (location a) <? location_precision (location b))%nat
    then b else a.
Proof.
  destruct (Nat.ltb_spec (location_precision (location a))
              (location_precision (location b))) as [Hlt|Hge].
  - unfold choose_better. by rewrite (proj2 (Nat.ltb_lt _ _) Hlt).
  - destruct (decide (location_precision (location a)
                      = location_precision (location b))) as [Heq|Hne].
    + by apply choose_better_tie.
    + unfold choose_better.
      rewrite (proj2 (Nat.ltb_ge _ _) Hge), (proj2 (Nat.ltb_lt _ _)); [done|lia].
Qed.

(** X15. [choose_better] returns one of its two arguments as it is: the
    second one if its location is strictly more precise, the first one
    if not.  It never builds a record. *)
Theorem choose_better_either a b :
  choose_better a b
  = if (location_precision (location a) <? location_precision (location b))%nat
    then b else a.
Proof. apply choose_better_pick. Qed.

Section DedupMore.
Context `{UnicodeData}.
Implicit Types (t u : Tournament) (ts : list Tournament).
Implicit Types (seen : list (str * Tournament)).

Lemma dedup_loop_first_best ts :
  (∀ k u, dict_get k (fold_left dedup_step ts []) = Some u → first_best ts k u)
  ∧ (∀ t, t ∈ ts → is_Some (dict_get (dedup_key t) (fold_left dedup_step ts []))).
Proof.
  induction ts as [|t0 ts [IH1 IH2]] using rev_ind; [split; [done|]|].
  { intros t Ht. by apply elem_of_nil in Ht. }
  rewrite fold_left_app. simpl. set (seen := fold_left dedup_step ts []) in *.
  split.
  - intros k u. rewrite dedup_step_get. case_decide as Hk.
    + subst k. destruct (dict_get (dedup_key t0) seen) as [cur|] eqn:Hcur; simpl.
      * destruct (IH1 _ _ Hcur) as (Hkc & i & Hi & Hbest).
        rewrite choose_better_pick.
        destruct (Nat.ltb_spec (location_precision (location cur))
                    (location_precision (location t0))) as [Hlt|Hge];
          intros [= <-]; (split; [done|]).
        -- exists (length ts). split; [by apply list_lookup_middle|].
           intros j t Hj Hkt. apply lookup_app_Some in Hj as [Hj|[Hlen Hj]].
           ++ destruct (Hbest j t Hj Hkt). lia.
           ++ apply list_lookup_singleton_Some in Hj as [? ->]. lia.
        -- exists i. split; [by apply lookup_app_l_Some|].
           intros j t Hj Hkt. apply lookup_app_Some in Hj as [Hj|[Hlen Hj]].
           ++ by apply Hbest.
           ++ apply list_lookup_singleton_Some in Hj as [? ->].
              apply lookup_lt_Some in Hi. lia.
      * intros [= <-]. split; [done|]. exists (length ts).
        split; [by apply list_lookup_middle|].
        intros j t Hj Hkt. apply lookup_app_Some in Hj as [Hj|[Hlen Hj]].
        -- destruct (IH2 t) as [u Hu]; [by apply list_elem_of_lookup_2 in Hj|].
           rewrite Hkt in Hu. congruence.
        -- apply list_lookup_singleton_Some in Hj as [? ->]. lia.
    + intros Hu. destruct (IH1 _ _ Hu) as (Hku & i & Hi & Hbest).
      split; [done|]. exists i. split; [by apply lookup_app_l_Some|].
      intros j t Hj Hkt. apply lookup_app_Some in Hj as [Hj|[Hlen Hj]].
      * by apply Hbest.
      * apply list_lookup_singleton_Some in Hj as [? ->]. congruence.
  - intros t [Ht| ->%list_elem_of_singleton]%elem_of_app; rewrite dedup_step_get.
    + case_decide; [by eexists|]. by apply IH2.
    + rewrite decide_True by done. by eexists.
Qed.

(** X16. A record that [dedup] returns is one of the records given, and
    among those of its key it is the first with the highest precision
    of location. *)
Theorem dedup_keeps_first_best ts u :
  u ∈ dedup ts →
  ∃ i, ts !! i = Some u
       ∧ ∀ j t, ts !! j = Some t → identity t = identity u →
                location_precision (location t) ≤ location_precision (location u)
                ∧ (location_precision (location t)
                   = location_precision (location u) → i ≤ j).
Proof.
  intros Hu%elem_of_dedup.
  destruct (proj1 (dedup_loop_first_best ts) _ _ Hu) as (_ & i & Hi & Hbest).
  exists i. split; [done|]. intros j t Hj Hid. apply Hbest; [done|].
  by apply dedup_key_identity.
Qed.

(** X17. [dedup] returns as many records as there are different keys, at
    most as many as it is given. *)
Theorem dedup_length ts :
  length (dedup ts) = size (list_to_set (dedup_key <$> ts) : gset str)
  ∧ length (dedup ts) ≤ length ts.
Proof.
  pose proof (NoDup_dedup_keys ts) as Hnd.
  assert (∀ k, k ∈ dedup_key <$> dedup ts ↔ k ∈ dedup_key <$> ts) as Hk.
  { intros k. rewrite dedup_keys, dedup_loop_keys, elem_of_nil. tauto. }
  rewrite <-(length_fmap dedup_key (dedup ts)). split.
  - rewrite <-(size_list_to_set (C:=gset str)) by done. f_equal.
    apply set_eq. intros k. by rewrite !elem_of_list_to_set.
  - rewrite <-(length_fmap dedup_key ts). apply submseteq_length.
    apply NoDup_submseteq; [done|]. intros k. apply Hk.
Qed.

(** X18. A list without two records of one key is returned as it is. *)
Theorem dedup_distinct ts : NoDup (dedup_key <$> ts) → dedup ts = ts.
Proof.
  intros Hnd. unfold dedup. rewrite dedup_loop_distinct by done. simpl.
  rewrite <-list_fmap_compose. apply list_fmap_id.
Qed.

(** X19. The records come out in the order in which their keys are first
    met. *)
Theorem dedup_order ts :
  dedup_key <$> dedup ts = reverse (remove_dups (reverse (dedup_key <$> ts))).
Proof.
  rewrite dedup_keys.
  induction ts as [|t ts IH] using rev_ind; [done|].
  rewrite fold_left_app, fmap_app, reverse_app. simpl.
  rewrite dedup_step_keys, IH.
  assert (dedup_key t ∈ reverse (remove_dups (reverse (dedup_key <$> ts)))
          ↔ dedup_key t ∈ reverse (dedup_key <$> ts)) as Hin.
  { by rewrite elem_of_reverse, elem_of_remove_dups. }
  destruct (decide_rel elem_of _ (reverse (dedup_key <$> ts))) as [Hr|Hr].
  - by rewrite decide_True by (by apply Hin).
  - rewrite decide_False by (by rewrite Hin). by rewrite reverse_cons.
Qed.
End DedupMore.

(** ** More on the cross-fill *)

Section CrossFillMore.
Context `{UnicodeData}.
Implicit Types (t c : obj) (os pre : list obj) (best : option str * Q).

Lemma fold_left_filter {A B} (P : B → Prop) `{!∀ x, Decision (P x)}
    (g : A → B → A) (l : list B) (a : A) :
  fold_left g (filter P l) a
  = fold_left (λ a x, if decide (P x) then g a x else a) l a.
Proof.
  revert a. induction l as [|x l IH]; intros a; [done|].
  rewrite filter_cons. simpl. destruct (decide (P x)); simpl; apply IH.
Qed.

(** One candidate more. *)
Lemma found_step t pre best c :
  found t pre best →
  found t (pre ++ [c])
    (if decide (start c.2 = start t.2) then consider t best c else best).
Proof.
  intros Hf.
  assert (∀ c', c' ∈ pre ++ [c] → c' ∈ pre ∨ c' = c) as Hin.
  { intros c'. rewrite elem_of_app, list_elem_of_singleton. tauto. }
  assert ((qualifies t c ∧ (28 # 100 <= score t c)%Q)
          ∨ (qualifies t c → (score t c < 28 # 100)%Q)) as [[Hq Hs]|Hlow].
  { destruct (decide (qualifies t c)) as [Hq|Hnq]; [|by right].
    destruct (Qlt_le_dec (score t c) (28 # 100)); [by right|by left]. }
  - (* [c] is taken if it is strictly better *)
    rewrite decide_True by (by destruct Hq as (_ & ? & _)).
    rewrite consider_accepts by done. fold (score t c).
    destruct Hf as [[-> Hnone]|(j & c0 & Hj & Hq0 & Hs0 & -> & Hmax)]; simpl.
    + rewrite (proj2 (Qltb_lt _ _)); [|eapply Qlt_le_trans; [|exact Hs]; reflexivity].
      right. exists (length pre), c. split_and!; try done.
      { by apply list_lookup_middle. }
      intros j' c' Hj' Hq'. apply lookup_app_Some in Hj' as [Hj'|[Hlen Hj']].
      * assert (score t c' < score t c)%Q.
        { eapply Qlt_le_trans; [|exact Hs]. apply Hnone; [|done].
          by apply list_elem_of_lookup_2 in Hj'. }
        split; [by apply Qlt_le_weak|done].
      * apply list_lookup_singleton_Some in Hj' as [? ->].
        split; [apply Qle_refl|lia].
    + destruct (Qltb (score t c0) (score t c)) eqn:Hlt.
      * apply Qltb_lt in Hlt.
        right. exists (length pre), c. split_and!; try done.
        { by apply list_lookup_middle. }
        intros j' c' Hj' Hq'. apply lookup_app_Some in Hj' as [Hj'|[Hlen Hj']].
        -- assert (score t c' < score t c)%Q.
           { eapply Qle_lt_trans; [|exact Hlt]. by apply (Hmax j'). }
           split; [by apply Qlt_le_weak|done].
        -- apply list_lookup_singleton_Some in Hj' as [? ->].
           split; [apply Qle_refl|lia].
      * apply Qltb_ge in Hlt.
        right. exists j, c0. split_and!; try done.
        { by apply lookup_app_l_Some. }
        intros j' c' Hj' Hq'. apply lookup_app_Some in Hj' as [Hj'|[Hlen Hj']].
        -- by apply Hmax.
        -- apply list_lookup_singleton_Some in Hj' as [? ->].
           split; [done|]. apply lookup_lt_Some in Hj. lia.
  - (* [c] is passed over *)
    assert ((if decide (start c.2 = start t.2) then consider t best c else best)
            = best) as ->.
    { case_decide; [|done]. by apply consider_rejects. }
    destruct Hf as [[-> Hnone]|(j & c0 & Hj & Hq0 & Hs0 & -> & Hmax)].
    + left. split; [done|]. intros c' [?| ->]%Hin; auto.
    + right. exists j, c0. split_and!; try done.
      { by apply lookup_app_l_Some. }
      intros j' c' Hj' Hq'. apply lookup_app_Some in Hj' as [Hj'|[Hlen Hj']].
      * by apply Hmax.
      * apply list_lookup_singleton_Some in Hj' as [? <-].
        assert (score t c < score t c0)%Q.
        { eapply Qlt_le_trans; [by apply Hlow|done]. }
        split; [by apply Qlt_le_weak|]. apply lookup_lt_Some in Hj. lia.
Qed.

(** What the loop over the candidates of [t] ends with. *)
Lemma found_cands t os :
  found t os
    (fold_left (consider t) (default [] (fold_left by_start_add os ∅ !! start t.2))
       (None, 0%Q)).
Proof.
  rewrite cands_of, fold_left_filter.
  induction os as [|c os IH] using rev_ind.
  - left. split; [done|]. intros c Hc. by apply elem_of_nil in Hc.
  - rewrite fold_left_app. simpl. by apply found_step.
Qed.

(** What is appended for [t]. *)
Lemma fill_one_found t os :
  location_precision (location t.2) ≠ 2 →
  (fill_one (fold_left by_start_add os ∅) t = t.2
   ∧ ∀ c, c ∈ os → qualifies t c → (score t c < 28 # 100)%Q)
  ∨ ∃ j c, os !! j = Some c ∧ qualifies t c ∧ (28 # 100 <= score t c)%Q
           ∧ fill_one (fold_left by_start_add os ∅) t
             = with_location t.2 (location c.2)
           ∧ location (with_location t.2 (location c.2)) ≠ location t.2
           ∧ ∀ j' c', os !! j' = Some c' → qualifies t c' →
                      (score t c' <= score t c)%Q
                      ∧ (j' < j → (score t c' < score t c)%Q).
Proof.
  intros Hp. unfold fill_one. rewrite (proj2 (Nat.eqb_neq _ _) Hp).
  destruct (found_cands t os) as [[-> Hnone]|(j & c & Hj & Hq & Hs & -> & Hmax)].
  - left. by split.
  - right. exists j, c. split_and!; try done.
    + simpl. destruct Hq as (_ & _ & Hc2 & _).
      rewrite (location_precision_2_truthy _ Hc2). simpl.
      rewrite bool_decide_false; [done|]. intros Heq. by rewrite Heq in Hc2.
    + simpl. destruct Hq as (_ & _ & Hc2 & _). intros Heq. by rewrite Heq in Hc2.
Qed.

(** X20. Where the cross-fill changes a record, the new location is that
    of a qualifying candidate whose similarity is 0.28 or more and not
    below that of any other qualifying candidate, and which comes before
    every other one of the same similarity; nothing else changes. *)
Theorem cross_fill_source os i t v :
  os !! i = Some t →
  cross_fill_locations os !! i = Some v →
  v ≠ t.2 →
  ∃ j c, os !! j = Some c ∧ qualifies t c ∧ (28 # 100 <= score t c)%Q
         ∧ v = with_location t.2 (location c.2)
         ∧ ∀ j' c', os !! j' = Some c' → qualifies t c' →
                    (score t c' <= score t c)%Q
                    ∧ (j' < j → (score t c' < score t c)%Q).
Proof.
  intros Ht. rewrite cross_fill_lookup, Ht. simpl. intros [= <-] Hv.
  destruct (decide (location_precision (location t.2) = 2)) as [Hp|Hp].
  { destruct Hv. unfold fill_one. by rewrite (proj2 (Nat.eqb_eq _ _) Hp). }
  destruct (fill_one_found t os Hp) as [[Hsame _]|(j & c & Hj & Hq & Hs & Hf & _ & Hmax)];
    [done|].
  exists j, c. by split_and!.
Qed.

(** X21. A record below precision 2 is passed on unchanged exactly if no
    qualifying candidate has a similarity of 0.28 or more. *)
Theorem cross_fill_unchanged_iff os i t :
  os !! i = Some t →
  location_precision (location t.2) ≠ 2 →
  cross_fill_locations os !! i = Some t.2
  ↔ ∀ c, c ∈ os → qualifies t c → (score t c < 28 # 100)%Q.
Proof.
  intros Ht Hp. rewrite cross_fill_lookup, Ht. simpl.
  destruct (fill_one_found t os Hp)
    as [[Hsame Hnone]|(j & c & Hj & Hq & Hs & Hf & Hne & _)].
  - by rewrite Hsame.
  - rewrite Hf. split.
    + intros [= Heq]. by rewrite Heq in Hne.
    + intros Hnone. exfalso. apply (Qlt_not_le _ _ (Hnone c (list_elem_of_lookup_2 _ _ _ Hj) Hq)).
      done.
Qed.

(** X22. Without a record of precision 2 in the list, the cross-fill
    returns the records as they are. *)
Theorem cross_fill_nothing_to_copy os :
  (∀ c, c ∈ os → location_precision (location c.2) ≠ 2) →
  cross_fill_locations os = os.*2.
Proof.
  intros Hall. apply list_eq. intros i.
  rewrite cross_fill_lookup, list_lookup_fmap. unfold obj in *.
  destruct (os !! i) as [t|] eqn:Ht; simpl; [|done]. f_equal.
  assert (t ∈ os) as Hin by (by apply list_elem_of_lookup_2 in Ht).
  destruct (fill_one_found t os (Hall t Hin))
    as [[Hsame _]|(j & c & Hj & Hq & _)]; [done|].
  destruct Hq as (_ & _ & Hc2 & _).
  by destruct (Hall c (list_elem_of_lookup_2 _ _ _ Hj)).
Qed.
End CrossFillMore.

Section Aliasing.
Context `{UnicodeData}.
Implicit Types (t c : obj) (os : list obj) (best : option str * Q).

(** With consistent identities the test [c is t] decides nothing: the
    iteration is the one for two different objects of the same values. *)
Lemma consider_values t best c :
  location_precision (location t.2) ≠ 2 →
  (c.1 = t.1 → c.2 = t.2) →
  consider t best c = consider (0, t.2) best (1, c.2).
Proof.
  intros Hp Hid. unfold consider. simpl.
  destruct (Nat.eqb_spec c.1 t.1) as [Heq|Hne]; [|done].
  rewrite (Hid Heq).
  by destruct (Nat.eqb_spec (location_precision (location t.2)) 2).
Qed.

Lemma scan_values t l best :
  location_precision (location t.2) ≠ 2 →
  (∀ c, c ∈ l → c.1 = t.1 → c.2 = t.2) →
  fold_left (consider t) l best
  = fold_left (λ b v, consider (0, t.2) b (1, v)) l.*2 best.
Proof.
  intros Hp. revert best. induction l as [|c l IH]; intros best Hl; [done|].
  simpl. rewrite consider_values; [|done|apply Hl; left].
  apply IH. intros c' Hc'. apply Hl. by right.
Qed.

Lemma filter_start_values os (k : Z) :
  (filter (λ c : obj, start c.2 = k) os).*2 = filter (λ v, start v = k) os.*2.
Proof.
  induction os as [|c os IH]; [done|].
  rewrite fmap_cons, !filter_cons. destruct (decide (start c.2 = k)); simpl;
    [f_equal|]; apply IH.
Qed.

Lemma fill_one_values os os' t t' :
  consistent os → consistent os' → os.*2 = os'.*2 →
  t ∈ os → t' ∈ os' → t.2 = t'.2 →
  fill_one (fold_left by_start_add os ∅) t
  = fill_one (fold_left by_start_add os' ∅) t'.
Proof.
  intros Hc Hc' Hv Ht Ht' Htt. unfold fill_one. rewrite <-Htt.
  destruct (Nat.eqb_spec (location_precision (location t.2)) 2) as [|Hp]; [done|].
  rewrite !cands_of.
  rewrite (scan_values t);
    [|done|intros c [_ Hin]%list_elem_of_filter; by apply Hc].
  rewrite (scan_values t');
    [|by rewrite <-Htt|intros c [_ Hin]%list_elem_of_filter; by apply Hc'].
  by rewrite !filter_start_values, <-Htt, Hv.
Qed.

(** X23. The cross-fill sees the values of the records only: two lists
    of the same records, each with consistent identities, give the same
    result, whichever objects are the same.  The test [c is t] decides
    nothing. *)
Theorem cross_fill_values os os' :
  consistent os → consistent os' → os.*2 = os'.*2 →
  cross_fill_locations os = cross_fill_locations os'.
Proof.
  intros Hc Hc' Hv. apply list_eq. intros i. rewrite !cross_fill_lookup.
  assert (snd <$> os !! i = snd <$> os' !! i) as Hi.
  { by rewrite <-!list_lookup_fmap, Hv. }
  unfold obj in *.
  destruct (os !! i) as [t|] eqn:Ht, (os' !! i) as [t'|] eqn:Ht'; try done.
  simpl in *. f_equal. injection Hi as Hi.
  apply fill_one_values; try done; by eapply list_elem_of_lookup_2.
Qed.
End Aliasing.

(** ** The date filter and the WPA records *)

(** X24. An event is kept exactly if the reference day is not after the
    later one of its start and its end. *)
Theorem is_upcoming_or_ongoing_max (start_d end_d from_d : date) :
  is_upcoming_or_ongoing start_d end_d from_d
  = bool_decide (from_d <= Z.max start_d end_d)%Z.
Proof.
  unfold is_upcoming_or_ongoing.
  destruct (Z.leb_spec from_d start_d), (Z.ltb_spec start_d from_d),
    (Z.leb_spec from_d end_d); simpl; symmetry;
    (apply bool_decide_eq_true || apply bool_decide_eq_false); lia.
Qed.

(** X25. A record that [fetch_wpa_ics] emits has the cleaned summary as
    its title, not empty; it starts on the day of [DTSTART]; it passes
    the date filter; and its end is not before its start exactly if the
    event has no [DTEND] or one on a later day than [DTSTART]. *)
Theorem wpa_record_span from_d label feed_url comp t :
  wpa_record from_d label feed_url comp = Some t →
  title t = ev_summary comp ∧ title t ≠ []
  ∧ start t = ics_dt_to_date (ev_dtstart comp)
  ∧ (from_d <= Z.max (start t) (end_ t))%Z
  ∧ ((start t <= end_ t)%Z
     ↔ match ev_dtend comp with
       | None => True
       | Some dtend => (ics_dt_to_date (ev_dtstart comp) < ics_dt_to_date dtend)%Z
       end).
Proof.
  unfold wpa_record. destruct (ev_summary comp) as [|a s] eqn:Hs; [done|].
  cbn [truthy negb].
  destruct (is_upcoming_or_ongoing _ _ _) eqn:Hup; [|done].
  intros [= <-]. cbn [title start end_ negb].
  unfold is_upcoming_or_ongoing in Hup.
  split_and!; [done|done|done| |].
  - destruct (ev_dtend comp); lia.
  - destruct (ev_dtend comp); [lia|]. split; [done|lia].
Qed.

(** ** More on the conflict set *)

Module ConflictMore.
Import ExportIcs ConflictProps.
Local Open Scope Z_scope.
Implicit Types (rows more : list Row) (i j : nat) (r s : Row).

(** X26. Without any condition on the rows: an index is in the set
    exactly if the row of another index passes the test of the loop with
    its row, [a.start <= b.end and b.start <= a.end]. *)
Theorem conflict_set_by_test rows i :
  i ∈ build_conflict_set rows
  ↔ ∃ j r s, j ≠ i ∧ rows !! i = Some r ∧ rows !! j = Some s
             ∧ start r <= end_ s ∧ start s <= end_ r.
Proof. apply build_conflict_set_overlap. Qed.


(** X28. More rows never take an index out of the set. *)
Theorem conflict_set_grows rows more i :
  i ∈ build_conflict_set rows → i ∈ build_conflict_set (rows ++ more).
Proof.
  rewrite !build_conflict_set_overlap.
  intros (j & r & s & Hj & Hr & Hs & Ho). exists j, r, s.
  split_and!; try done; by apply lookup_app_l_Some.
Qed.

End ConflictMore.

(** ** Titles *)

Section CleanTitleProps.
Context `{UnicodeData}.
Implicit Types (s text alt : str).


End CleanTitleProps.

(** ** The further properties on sample data *)

Section MoreSamples.
Local Existing Instance ascii_tables.

(** The space of ["Las Vegas"], normalised from a string with more. *)
Lemma norm_spaces_shape_witness :
  norm_spaces (Some (lit "  Las   Vegas ")) !! 3 = Some 32%N
  ∧ ∃ d, norm_spaces (Some (lit "  Las   Vegas ")) !! 4 = Some d
         ∧ isspace d = false.
Proof.
  assert (norm_spaces (Some (lit "  Las   Vegas ")) !! 3 = Some 32%N) as Hi
    by (by vm_compute).
  split; [exact Hi|].
  exact (proj2 (proj2 (norm_spaces_shape _ 3 32%N Hi eq_refl))).
Defined.

Lemma normalize_location_blank_witness :
  normalize_location (Some (lit "   ")) = None.
Proof.
  apply (normalize_location_blank (lit "   ")).
  intros c Hc. repeat (apply elem_of_cons in Hc as [->|Hc]; [done|]).
  by apply elem_of_nil in Hc.
Defined.

Lemma normalize_location_spelling_witness :
  normalize_location (Some (lit "Istanbul, Tukey")) = Some (lit "Istanbul, Turkey")
  ∧ contains (lit "Tukey") (lit "Istanbul, Turkey") = false.
Proof.
  assert (normalize_location (Some (lit "Istanbul, Tukey"))
          = Some (lit "Istanbul, Turkey")) as Hn by (by vm_compute).
  split; [exact Hn|]. exact (normalize_location_spelling _ _ Hn).
Defined.

Lemma normalize_location_precision_witness :
  normalize_location (Some (lit "Paris / France")) = Some (lit "Paris, France")
  ∧ location_precision (Some (lit "Paris, France")) = 2.
Proof.
  assert (normalize_location (Some (lit "Paris / France"))
          = Some (lit "Paris, France")) as Hn by (by vm_compute).
  split; [exact Hn|].
  refine (proj2 (proj2 (normalize_location_precision _ _ Hn)
                   (lit "Paris") (lit "France") _ _ _)); by vm_compute.
Defined.

Lemma slug_idempotent_witness :
  slug (lit "US Open (Qualifier) 2026!") = lit "us-open-qualifier-2026"
  ∧ slug (slug (lit "US Open (Qualifier) 2026!"))
    = slug (lit "US Open (Qualifier) 2026!").
Proof.
  split; [by vm_compute|].
  apply (slug_idempotent (lit "US Open (Qualifier) 2026!")). by vm_compute.
Defined.

Lemma title_tokens_shape_witness :
  lit "qualifier" ∈ title_tokens (lit "US Open Qualifier 2026")
  ∧ 3 ≤ length (lit "qualifier")
  ∧ Forall (λ c, slug_alnum c = true) (lit "qualifier").
Proof.
  assert (lit "qualifier" ∈ title_tokens (lit "US Open Qualifier 2026")) as Hin
    by by_computing.
  split; [exact Hin|]. exact (title_tokens_shape _ _ Hin).
Defined.

(** Of the two records of the key of [us_open], the second is the more
    precise one. *)
Lemma dedup_keeps_first_best_witness :
  us_open_coarse ∈ dedup [us_open; us_open_coarse; us_open_qualifier]
  ∧ ∃ i, [us_open; us_open_coarse; us_open_qualifier] !! i = Some us_open_coarse
         ∧ ∀ j t, [us_open; us_open_coarse; us_open_qualifier] !! j = Some t →
                  identity t = identity us_open_coarse →
                  location_precision (location t)
                  ≤ location_precision (location us_open_coarse)
                  ∧ (location_precision (location t)
                     = location_precision (location us_open_coarse) → i ≤ j).
Proof.
  assert (us_open_coarse ∈ dedup [us_open; us_open_coarse; us_open_qualifier])
    as Hin by by_computing.
  split; [exact Hin|]. exact (dedup_keeps_first_best _ _ Hin).
Defined.

Lemma dedup_distinct_witness :
  dedup [us_open; us_open_qualifier] = [us_open; us_open_qualifier].
Proof. apply (dedup_distinct [us_open; us_open_qualifier]). by_computing. Defined.

Lemma cross_fill_source_witness :
  ∃ j c, at_028 !! j = Some c
         ∧ (28 # 100 <= score (0%nat, titled (words 0 16) (mkdate 2026 3 5) None) c)%Q
         ∧ cross_fill_locations at_028 !! 0
           = Some (with_location (titled (words 0 16) (mkdate 2026 3 5) None)
                     (location c.2)).
Proof.
  assert (cross_fill_locations at_028 !! 0
          = Some (titled (words 0 16) (mkdate 2026 3 5)
                    (Some "Las Vegas, USA")%string)) as Hv by (by vm_compute).
  destruct (cross_fill_source at_028 0
              (0, titled (words 0 16) (mkdate 2026 3 5) None) _ eq_refl Hv)
    as (j & c & Hj & _ & Hs & Hc & _); [by vm_compute|].
  exists j, c. split_and!; [done|done|]. by rewrite Hv, Hc.
Defined.

Lemma cross_fill_unchanged_iff_witness :
  cross_fill_locations at_027 !! 0
  = Some (titled (words 0 64) (mkdate 2026 3 5) None)
  ∧ ∀ c, c ∈ at_027 →
         qualifies (0, titled (words 0 64) (mkdate 2026 3 5) None) c →
         (score (0%nat, titled (words 0 64) (mkdate 2026 3 5) None) c < 28 # 100)%Q.
Proof.
  assert (cross_fill_locations at_027 !! 0
          = Some (titled (words 0 64) (mkdate 2026 3 5) None)) as Hv
    by (by vm_compute).
  split; [exact Hv|].
  refine (proj1 (cross_fill_unchanged_iff at_027 0
                   (0, titled (words 0 64) (mkdate 2026 3 5) None) eq_refl _) Hv).
  by vm_compute.
Defined.

Lemma cross_fill_nothing_to_copy_witness :
  cross_fill_locations [(0, us_open); (1, us_open_coarse)]
  = [us_open; us_open_coarse].
Proof.
  apply (cross_fill_nothing_to_copy [(0, us_open); (1, us_open_coarse)]).
  intros c Hc. repeat (apply elem_of_cons in Hc as [->|Hc]; [by vm_compute|]).
  by apply elem_of_nil in Hc.
Defined.

(** The same two records, as one object met twice and another, and as
    three objects. *)
Lemma cross_fill_values_witness :
  cross_fill_locations [(7, us_open); (7, us_open); (8, us_open_qualifier)]
  = cross_fill_locations [(0, us_open); (1, us_open); (2, us_open_qualifier)].
Proof.
  apply cross_fill_values; [| |done];
    intros c c' Hc Hc' Hid;
    repeat (apply elem_of_cons in Hc as [->|Hc]);
    repeat (apply elem_of_cons in Hc' as [->|Hc']);
    try done; by (apply elem_of_nil in Hc || apply elem_of_nil in Hc').
Defined.

Lemma wpa_record_span_witness :
  ∃ t, wpa_record (mkdate 2026 1 1) (lit "WPA_ALL")
         (lit "https://wpapool.com/?mec-ical-feed=1") three_day_event = Some t
       ∧ start t = mkdate 2026 3 1 ∧ end_ t = mkdate 2026 3 3
       ∧ (start t <= end_ t)%Z.
Proof.
  eexists. split; [by vm_compute|]. split; [by vm_compute|].
  split; [by vm_compute|].
  refine (proj2 (proj2 (proj2 (proj2 (proj2
            (wpa_record_span (mkdate 2026 1 1) (lit "WPA_ALL")
               (lit "https://wpapool.com/?mec-ical-feed=1") three_day_event
               _ eq_refl))))) _).
  by vm_compute.
Defined.


Example clean_title_example :
  clean_title (lit "US Open  Show Poster") = lit "US Open".
Proof. by vm_compute. Qed.
End MoreSamples.

Module ConflictMoreSamples.
Import ExportIcs ExportIcsSample ConflictProps ConflictMore.


Lemma conflict_set_grows_witness :
  0 ∈ build_conflict_set ([apr_10_12; apr_12_15] ++ [apr_13_15]).
Proof.
  apply (conflict_set_grows [apr_10_12; apr_12_15] [apr_13_15] 0). by_computing.
Defined.
End ConflictMoreSamples.
